(** * The cli-test-intern reporter: event aggregation and coverage merge

    A shallow embedding of [src/reporters/Reporter.ts].  The reporter is a
    class whose handlers are called by the Intern host, one event at a
    time.  Each handler is embedded as a function on the reporter object
    and on the part of the outside world it touches (console, output
    stream, file system); a handler that can throw returns an [Outcome]
    that keeps the state reached at the throw. *)

From stdpp Require Import gmap strings list fin_maps pretty sorting.

Open Scope string_scope.
Open Scope list_scope.
Set Warnings "-register-all".

(** ** JavaScript values used by the reporter *)

(** The line feed, written ['\n'] in the source. *)
Definition nl : string := String (Ascii.ascii_of_nat 10) EmptyString.

(** Truthiness of a string: every string but the empty one. *)
Definition truthy (s : string) : bool := negb (String.eqb s "").

(** [a || b] on strings. *)
Definition str_or (a b : string) : string := if truthy a then a else b.

(** An [Error] object, as carried by a failed test or suite: its name and
    message, and what the comparison [error > 0] gives for it.  The
    comparison converts the object to a number through its [toString],
    which yields the name, the message, or "name: message"; the result is
    not a number, and the comparison false, unless that text happens to be
    a numeric literal, as for an error with an empty name and the message
    "1". *)
Record ErrorObject := {
  errName : string;
  errMessage : string;
  errGreaterThanZero : bool
}.

(** The exceptions the handlers can raise. *)
Inductive Exn :=
| TypeError (what : string)   (* a value used as what it is not *)
| SyntaxError                 (* [JSON.parse] on text that is not JSON *)
| ENOENT (path : string)      (* [readFileSync]: no such file *)
| EACCES (path : string).     (* [readFileSync]: permission denied *)

(** Result of a handler: it returned, or it threw and left the state as
    it was at the throw. *)
Inductive Outcome (S : Type) :=
| Done (s : S)
| Thrown (e : Exn) (s : S).
Arguments Done {S} s.
Arguments Thrown {S} e s.

Definition final {S} (o : Outcome S) : S :=
  match o with Done s => s | Thrown _ s => s end.

Definition threw {S} (o : Outcome S) : option Exn :=
  match o with Done _ => None | Thrown e _ => Some e end.

(** ** chalk and the console

    [chalk]'s functions wrap a string in escape sequences.  The wrapping
    is kept as a tree, and [plain] gives the characters without the
    escapes. *)
Inductive Style := red | green | grey | white | bold | red_bold | white_bold.

Inductive Text :=
| Str (s : string)
| Sty (st : Style) (t : Text)
| Cat (a b : Text).

Fixpoint plain (t : Text) : string :=
  match t with
  | Str s => s
  | Sty _ t => plain t
  | Cat a b => plain a +:+ plain b
  end.

(** The style applied to the whole of a text, if there is one. *)
Definition outer_style (t : Text) : option Style :=
  match t with Sty st _ => Some st | _ => None end.

(** One call of [console.log]: its arguments, which Node joins with a
    space. *)
Definition LogCall := list Text.

Fixpoint log_plain (args : LogCall) : string :=
  match args with
  | [] => ""
  | [a] => plain a
  | a :: rest => plain a +:+ " " +:+ log_plain rest
  end.

(** ** Coverage *)

(** Modelled from the spec: the coverage objects of istanbul, which are
    not part of this repository.  A snapshot is keyed by instrumented-file
    path and holds a hit count per file. *)
Abbreviation Coverage := (gmap string N).

(** Modelled from the spec: [Collector.add] of istanbul.  Adding a snapshot
    adds its counts to those already collected for the same file, and
    brings in the files that were not yet there. *)
Definition Collector_add (acc snapshot : Coverage) : Coverage :=
  union_with (fun a b => Some (a + b)%N) acc snapshot.

(** Modelled from the spec: [Collector.getFinalCoverage] of istanbul, the
    merged coverage object. *)
Definition getFinalCoverage (acc : Coverage) : Coverage := acc.

(** The count a coverage object shows for a file; a file it does not
    mention has count 0. *)
Definition count (X : string) (c : Coverage) : N := default 0%N (c !! X).

(** ** The file system

    A file can be read or not, and its text is kept as what [JSON.parse]
    makes of it: a coverage object, the value [null], or a syntax error;
    texts that hold another JSON value (a number, a string, an array) are
    not modelled.  Paths are taken as already resolved against the
    working directory. *)
Inductive Contents :=
| Json (c : Coverage)
| JsonNull
| Malformed.

Record File := { readable : bool; contents : Contents }.

Abbreviation FileSystem := (gmap string File).

(** [accessSync(path, constants.R_OK)]: throws unless the file is there and
    can be read. *)
Definition accessSync (fs : FileSystem) (path : string) : option Exn :=
  match fs !! path with
  | None => Some (ENOENT path)
  | Some f => if readable f then None else Some (EACCES path)
  end.

(** [readFileSync(path, { encoding: 'utf8' })]. *)
Definition readFileSync (fs : FileSystem) (path : string) : Exn + Contents :=
  match fs !! path with
  | None => inl (ENOENT path)
  | Some f => if readable f then inr (contents f) else inl (EACCES path)
  end.

(** [JSON.parse] on the text of a file: an object, or [null] ([None]). *)
Definition JSON_parse (c : Contents) : Exn + option Coverage :=
  match c with
  | Json cov => inr (Some cov)
  | JsonNull => inr None
  | Malformed => inl SyntaxError
  end.

(** ** Properties inherited from [Object.prototype]

    [sessions] and [_errors] are plain objects, read with [object[key]].
    A key that is not an own property but names a member of
    [Object.prototype] reads as that member: a function, or for
    [__proto__] the prototype itself, in each case an object and so
    truthy. *)
Definition Object_prototype_members : list string :=
  [ "constructor"; "__defineGetter__"; "__defineSetter__"; "hasOwnProperty";
    "__lookupGetter__"; "__lookupSetter__"; "isPrototypeOf";
    "propertyIsEnumerable"; "toString"; "valueOf"; "__proto__";
    "toLocaleString" ].

Definition inherited (key : string) : bool :=
  existsb (String.eqb key) Object_prototype_members.

(** ** Objects used as dictionaries, in property order

    [_errors] is an object literal filled by assignment and walked with
    [for ... in].  Own properties are kept in creation order; [ownKeys]
    gives the order of enumeration: array-index keys first, ascending,
    then the other keys in creation order.  [get] reads an own property;
    what a key reads when it is not one is decided where the object is
    read, with [inherited]. *)
Module JsObject.

Definition t (V : Type) := list (string * V).

Definition empty {V} : t V := [].

Fixpoint get {V} (k : string) (o : t V) : option V :=
  match o with
  | [] => None
  | (k', v) :: o' => if String.eqb k k' then Some v else get k o'
  end.

(** [o[k] = v]: replaces the value of an own property in place, or
    creates the property after the existing ones. *)
Fixpoint set {V} (k : string) (v : V) (o : t V) : t V :=
  match o with
  | [] => [(k, v)]
  | (k', v') :: o' =>
      if String.eqb k k' then (k, v) :: o' else (k', v') :: set k v o'
  end.

Definition keys {V} (o : t V) : list string := map fst o.

Definition digit (a : Ascii.ascii) : option N :=
  let n := Ascii.N_of_ascii a in
  if ((48 <=? n) && (n <=? 57))%N then Some (n - 48)%N else None.

Fixpoint parse_digits (acc : N) (s : string) : option N :=
  match s with
  | EmptyString => Some acc
  | String a s' =>
      match digit a with
      | Some d => parse_digits (10 * acc + d)%N s'
      | None => None
      end
  end.

(** A key is an array index when it is the canonical decimal form of an
    integer below 2^32 - 1. *)
Definition array_index (k : string) : option N :=
  match k with
  | EmptyString => None
  | _ =>
      match parse_digits 0 k with
      | Some n =>
          if String.eqb (pretty n) k && (n <? 4294967295)%N
          then Some n else None
      | None => None
      end
  end.

Definition index_le (a b : N * string) : Prop := (a.1 <= b.1)%N.

#[global] Instance index_le_dec : RelDecision index_le.
Proof. intros a b. unfold index_le. apply _. Defined.

Definition index_keys (ks : list string) : list (N * string) :=
  omap (fun k => (fun n => (n, k)) <$> array_index k) ks.

Definition name_keys (ks : list string) : list string :=
  List.filter (fun k => negb (bool_decide (is_Some (array_index k)))) ks.

Definition ownKeys {V} (o : t V) : list string :=
  map snd (merge_sort index_le (index_keys (keys o))) ++ name_keys (keys o).

End JsObject.

(** ** Suites and tests, as the host hands them over *)

(** The identity of a suite object owned by the host. *)
Definition SuiteRef := nat.

Module Test.
Record t := mk {
  id : string;
  sessionId : string;
  timeElapsed : N;               (* milliseconds *)
  error : option ErrorObject
}.
End Test.

Module Suite.
Inductive t := mk {
  name : string;
  sessionId : string;
  parent : option SuiteRef;
  error : option ErrorObject;
  tests : list (Test.t + t);     (* child tests and child suites *)
  numTests : N;
  numFailedTests : N;
  numSkippedTests : N
}.
End Suite.

(** The host's suite objects at one moment.  The reporter keeps references
    to root suites and reads their counters when the run ends, so the
    counters it sees are those the host has by then. *)
Definition Heap := SuiteRef -> Suite.t.

(** What the inner function [hasError] of [suiteEnd] returns: the suite's
    error object, or the boolean of [Array.prototype.some]. *)
Inductive JsValue :=
| VError (e : ErrorObject)
| VBool (b : bool).

Definition to_boolean (v : JsValue) : bool :=
  match v with VError _ => true | VBool b => b end.

(** [v > 0]: [true] converts to 1 and [false] to 0; an [Error] object
    converts through its text, mostly to [NaN], which compares false. *)
Definition gt_zero (v : JsValue) : bool :=
  match v with VError e => errGreaterThanZero e | VBool b => b end.

(** [function hasError(suite) { return suite.tests ?
      (suite.error || suite.tests.some(hasError)) : false; }]
    A suite has a [tests] array (truthy, also when empty); a test has no
    [tests] property, so the function answers [false] on a test whatever
    its [error] is. *)
Fixpoint hasError (suite : Suite.t) : JsValue :=
  match Suite.error suite with
  | Some e => VError e
  | None =>
      VBool (existsb (fun child =>
                        match child with
                        | inl _ => false
                        | inr s => to_boolean (hasError s)
                        end)
                     (Suite.tests suite))
  end.

(** ** The reporter object and the world around it *)

Module Session.
(** An entry of [sessions]: the object [{ suite: suite }], on which
    [coverage] later sets the property [coverage]. *)
Record t := mk { suite : SuiteRef; coverage : bool }.
End Session.

Module Entry.
(** What [testFail] pushes on the list of its session. *)
Record t := mk { id : string; timeElapsed : N; error : string }.
End Entry.

Definition DEFAULT_COVERAGE_FILENAME : string := "coverage-final.json".

Record Reporter := mkReporter {
  sessions : gmap string Session.t;          (* from [Runner] *)
  hasErrors : bool;                          (* from [Runner] *)
  _collector : Coverage;
  _errors : JsObject.t (list Entry.t);
  _filename : string;                        (* also the file of [this.reporter] *)
  _mode : string
}.

Record World := mkWorld {
  fs : FileSystem;
  console : list LogCall;                    (* calls of [console.log], oldest first *)
  output : list Text                         (* writes to [_output], oldest first *)
}.

Definition State : Type := Reporter * World.

Definition set_sessions (m : gmap string Session.t) (r : Reporter) : Reporter :=
  mkReporter m (hasErrors r) (_collector r) (_errors r) (_filename r) (_mode r).

Definition set_collector (c : Coverage) (r : Reporter) : Reporter :=
  mkReporter (sessions r) (hasErrors r) c (_errors r) (_filename r) (_mode r).

Definition set_errors (e : JsObject.t (list Entry.t)) (r : Reporter) : Reporter :=
  mkReporter (sessions r) (hasErrors r) (_collector r) e (_filename r) (_mode r).

Definition console_log (args : LogCall) (w : World) : World :=
  mkWorld (fs w) (console w ++ [args]) (output w).

Definition output_write (t : Text) (w : World) : World :=
  mkWorld (fs w) (console w) (output w ++ [t]).

Definition set_fs (f : FileSystem) (w : World) : World :=
  mkWorld f (console w) (output w).

(** The options of the constructor that the reporter reads itself. *)
Record Config := { file : option string; mode : option string }.

(** [constructor(config)]; [intern_mode] is [intern.mode].  The registry
    starts empty and the fatal-error flag unset, as [Runner] leaves them. *)
Definition new_Reporter (intern_mode : string) (config : Config) : Reporter :=
  {| sessions := ∅;
     hasErrors := false;
     _collector := ∅;
     _errors := JsObject.empty;
     _filename := str_or (default "" (file config)) DEFAULT_COVERAGE_FILENAME;
     _mode := str_or (default "" (mode config)) intern_mode |}.

(** ** Writing the coverage *)

Definition checkCoverageFinal (f : FileSystem) : bool :=
  match accessSync f DEFAULT_COVERAGE_FILENAME with
  | Some _ => false
  | None => true
  end.

(** Modelled from the spec: [JsonReporter.writeReport] of istanbul, which
    serializes the collector to the file the reporter was created with. *)
Definition writeReport (r : Reporter) (w : World) : World :=
  set_fs (<[_filename r := {| readable := true;
                              contents := Json (getFinalCoverage (_collector r)) |}]>
            (fs w)) w.

Definition _writeCoverage (st : State) : Outcome State :=
  let (r, w) := st in
  if checkCoverageFinal (fs w) then
    (* There is already coverage collected from a previous run *)
    match readFileSync (fs w) (_filename r) with
    | inl e => Thrown e (r, w)
    | inr text =>
        match JSON_parse text with
        | inl e => Thrown e (r, w)
        | inr None =>
            (* [Collector.add(null)]: [Object.keys(null)] throws *)
            Thrown (TypeError "Cannot convert undefined or null to object") (r, w)
        | inr (Some previous) =>
            let r' := set_collector (Collector_add (_collector r) previous) r in
            Done (r', writeReport r' w)
        end
    end
  else Done (r, writeReport r w).

(** ** [coverage] *)

(** [this.sessions[sessionId || '']] is a registered session, or, for a
    key that names a member of [Object.prototype], that member, or
    [undefined].  On a member the property [coverage] is set as on a
    session; the member is no part of the reporter, and the properties it
    gains are not followed further. *)
Definition coverage (sessionId : string) (cov : Coverage) (r : Reporter)
  : Outcome Reporter :=
  if String.eqb (_mode r) "client" || truthy sessionId then
    match sessions r !! str_or sessionId "" with
    | Some session =>
        let session' := Session.mk (Session.suite session) true in
        Done (set_collector (Collector_add (_collector r) cov)
                (set_sessions (<[str_or sessionId "" := session']> (sessions r)) r))
    | None =>
        if inherited (str_or sessionId "")
        then Done (set_collector (Collector_add (_collector r) cov) r)
        else Thrown (TypeError "Cannot set property 'coverage' of undefined") r
    end
  else Done r.

(** ** [runEnd] *)

Record Totals := mkTotals {
  numEnvironments : N;
  numTests : N;
  numFailedTests : N;
  numSkippedTests : N
}.

(** The body of the loop over [this.sessions]. *)
Definition add_session (H : Heap) (session : Session.t) (acc : Totals) : Totals :=
  let suite := H (Session.suite session) in
  {| numEnvironments := numEnvironments acc + 1;
     numTests := numTests acc + Suite.numTests suite;
     numFailedTests := numFailedTests acc + Suite.numFailedTests suite;
     numSkippedTests := numSkippedTests acc + Suite.numSkippedTests suite |}%N.

(** [for (const sessionId in this.sessions) { ... }].  The body only adds
    to the four counters, so the order of enumeration does not show. *)
Definition totals (H : Heap) (r : Reporter) : Totals :=
  map_fold (fun _ session acc => add_session H session acc)
           (mkTotals 0 0 0 0) (sessions r).

(** [ms / 1000] as JavaScript prints it, for a whole number of
    milliseconds: no fraction when it is zero, and no trailing zeros. *)
Definition seconds_text (ms : N) : string :=
  let q := (ms / 1000)%N in
  let r := (ms mod 1000)%N in
  let d1 := pretty (r / 100)%N in
  let d2 := pretty ((r / 10) mod 10)%N in
  let d3 := pretty (r mod 10)%N in
  if (r =? 0)%N then pretty q
  else if negb (r mod 10 =? 0)%N then pretty q +:+ "." +:+ d1 +:+ d2 +:+ d3
  else if negb ((r / 10) mod 10 =? 0)%N then pretty q +:+ "." +:+ d1 +:+ d2
  else pretty q +:+ "." +:+ d1.

(** The arguments of the [console.log] call made for one ledger entry. *)
Definition failure_log (test : Entry.t) : LogCall :=
  [ Cat (Cat (Cat (Sty red (Str "x "))
                  (Sty white_bold (Str (Entry.id test))))
             (Sty white (Str (" (" +:+ seconds_text (Entry.timeElapsed test)
                              +:+ "s)" +:+ nl))))
        (Sty red (Str (Entry.error test)));
    Str nl ].

(** [for (let sid in this._errors) { this._errors[sid].forEach(...) }] *)
Definition replay_errors (errors : JsObject.t (list Entry.t)) : list LogCall :=
  flat_map (fun sid => map failure_log (default [] (JsObject.get sid errors)))
           (JsObject.ownKeys errors).

Definition total_message (hasErrs : bool) (t : Totals) : Text :=
  let message :=
    ": tested " +:+ pretty (numEnvironments t) +:+ " platforms, "
    +:+ pretty (numFailedTests t) +:+ "/" +:+ pretty (numTests t) +:+ " failed" in
  let message :=
    if negb (numSkippedTests t =? 0)%N
    then message +:+ " (" +:+ pretty (numSkippedTests t) +:+ " skipped)"
    else message in
  let message :=
    if hasErrs && (numFailedTests t =? 0)%N
    then message +:+ "; fatal error occurred"
    else message in
  Cat (Sty bold (Str (nl +:+ "TOTAL"))) (Str message).

Definition total_line (hasErrs : bool) (t : Totals) : Text :=
  Sty (if (0 <? numFailedTests t)%N || hasErrs then red else green)
      (total_message hasErrs t).

(** What [runEnd] prints before it writes the coverage. *)
Definition runEnd_logs (H : Heap) (r : Reporter) : list LogCall :=
  let t := totals H r in
  [ [] ]
  ++ (if (0 <? numFailedTests t)%N
      then [ [Sty red_bold (Str (nl +:+ "Reported Test Errors:" +:+ nl))] ]
      else [])
  ++ replay_errors (_errors r)
  ++ [ [total_line (hasErrors r) t] ].

Definition runEnd (H : Heap) (st : State) : Outcome State :=
  let (r, w) := st in
  let w' := mkWorld (fs w) (console w ++ runEnd_logs H r) (output w) in
  _writeCoverage (r, w').

(** ** Suite and test events *)

Definition suiteStart (suite : Suite.t) (ref : SuiteRef) (st : State) : State :=
  let (r, w) := st in
  match Suite.parent suite with
  | Some _ => (r, w)
  | None =>
      let r' :=
        set_sessions (<[str_or (Suite.sessionId suite) "" := Session.mk ref false]>
                        (sessions r)) r in
      if truthy (Suite.sessionId suite)
      then (r', console_log [Str (nl +:+ "‣ Created session " +:+ Suite.name suite
                                  +:+ " (" +:+ Suite.sessionId suite +:+ ")")] w)
      else (r', w)
  end.

Definition suite_summary (suite : Suite.t) : string :=
  let summary :=
    Suite.name suite +:+ ": " +:+ pretty (Suite.numFailedTests suite) +:+ "/"
    +:+ pretty (Suite.numTests suite) +:+ " tests failed" in
  let summary :=
    if negb (Suite.numSkippedTests suite =? 0)%N
    then summary +:+ " (" +:+ pretty (Suite.numSkippedTests suite) +:+ " skipped)"
    else summary in
  if to_boolean (hasError suite)
  then summary +:+ "; fatal error occurred"
  else summary.

(** The condition of the last line parses as
    [numFailedTests || (hasError > 0)]. *)
Definition suite_style (suite : Suite.t) : Style :=
  if negb (Suite.numFailedTests suite =? 0)%N || gt_zero (hasError suite)
  then red else green.

Definition suiteEnd (suite : Suite.t) (st : State) : State :=
  let (r, w) := st in
  if bool_decide (is_Some (Suite.parent suite))
     || String.eqb (_mode r) "client"
     || negb (truthy (Suite.sessionId suite))
  then (r, w)
  else
    let w := console_log [Str nl] w in
    (r, console_log [Cat (Sty (suite_style suite) (Str (suite_summary suite)))
                         (Str nl)] w).

Section WithIntern.

(** [util.getErrorMessage] of Intern, which formats the error of a test;
    the reporter stores its result as it is. *)
Variable getErrorMessage : option ErrorObject -> string.

Definition entry_of (test : Test.t) : Entry.t :=
  {| Entry.id := Test.id test;
     Entry.timeElapsed := Test.timeElapsed test;
     Entry.error := getErrorMessage (Test.error test) |}.

(** [this._errors[test.sessionId]] is the list of the session, or, for a
    key that names a member of [Object.prototype] and has no list yet,
    that member: it is truthy, so no list is created, and it has no
    [push], so the call throws before anything is recorded or written. *)
Definition testFail (test : Test.t) (st : State) : Outcome State :=
  let (r, w) := st in
  let sid := Test.sessionId test in
  match JsObject.get sid (_errors r), inherited sid with
  | None, true =>
      Thrown (TypeError "this._errors[test.sessionId].push is not a function") (r, w)
  | _, _ =>
      let errors :=
        match JsObject.get sid (_errors r) with
        | None => JsObject.set sid [] (_errors r)
        | Some _ => _errors r
        end in
      let errors :=
        JsObject.set sid (default [] (JsObject.get sid errors) ++ [entry_of test])
                     errors in
      Done (set_errors errors r, output_write (Sty red (Str "×")) w)
  end.

Definition testPass (st : State) : State :=
  let (r, w) := st in (r, output_write (Sty green (Str "✓")) w).

Definition testSkip (st : State) : State :=
  let (r, w) := st in (r, output_write (Sty grey (Str "~")) w).

(** ** The stream of events *)

Inductive Event :=
| EvSuiteStart (ref : SuiteRef)
| EvSuiteEnd (ref : SuiteRef)
| EvTestPass
| EvTestFail (test : Test.t)
| EvTestSkip
| EvCoverage (sessionId : string) (cov : Coverage)
| EvRunEnd.

(** The host calls one handler, with its objects as they are then. *)
Definition step (H : Heap) (ev : Event) (st : State) : Outcome State :=
  match ev with
  | EvSuiteStart ref => Done (suiteStart (H ref) ref st)
  | EvSuiteEnd ref => Done (suiteEnd (H ref) st)
  | EvTestPass => Done (testPass st)
  | EvTestFail test => testFail test st
  | EvTestSkip => Done (testSkip st)
  | EvCoverage sessionId cov =>
      match coverage sessionId cov (fst st) with
      | Done r => Done (r, snd st)
      | Thrown e r => Thrown e (r, snd st)
      end
  | EvRunEnd => runEnd H st
  end.

(** Events are delivered in order; an exception leaves the handler and
    ends the delivery. *)
Fixpoint run (trace : list (Heap * Event)) (st : State) : Outcome State :=
  match trace with
  | [] => Done st
  | (H, ev) :: rest =>
      match step H ev st with
      | Done st' => run rest st'
      | Thrown e st' => Thrown e st'
      end
  end.

(** The delivery by a host that catches what a handler throws and goes on
    with the next event: the handler that threw has left the state as it
    was at the throw. *)
Fixpoint deliver (trace : list (Heap * Event)) (st : State) : State :=
  match trace with
  | [] => st
  | (H, ev) :: rest => deliver rest (final (step H ev st))
  end.

End WithIntern.

(** ** Notions used to state the properties *)

(** The test of [coverage]: client mode, or a session identifier that is
    not empty. *)
Definition accepts (r : Reporter) (sessionId : string) : bool :=
  String.eqb (_mode r) "client" || truthy sessionId.

(** The events that report on suites and tests. *)
Definition is_lifecycle (ev : Event) : bool :=
  match ev with
  | EvSuiteStart _ | EvSuiteEnd _ | EvTestPass | EvTestFail _ | EvTestSkip => true
  | EvCoverage _ _ | EvRunEnd => false
  end.

(** The key under which a root suite registers its session. *)
Definition session_key (suite : Suite.t) : string :=
  str_or (Suite.sessionId suite) "".

(** The registry after the start of one suite: a suite without a parent
    takes the entry of its session, other suites leave the registry alone. *)
Definition register (H : Heap) (ref : SuiteRef) (m : gmap string Session.t)
  : gmap string Session.t :=
  match Suite.parent (H ref) with
  | None => <[session_key (H ref) := Session.mk ref false]> m
  | Some _ => m
  end.

(** The sessions registered by the suite starts of a trace, on top of [m]. *)
Fixpoint registered (trace : list (Heap * Event)) (m : gmap string Session.t)
  : gmap string Session.t :=
  match trace with
  | [] => m
  | (H, EvSuiteStart ref) :: rest => registered rest (register H ref m)
  | _ :: rest => registered rest m
  end.

(** The session keys for which a trace starts a root suite. *)
Fixpoint started_roots (trace : list (Heap * Event)) : list string :=
  match trace with
  | [] => []
  | (H, EvSuiteStart ref) :: rest =>
      match Suite.parent (H ref) with
      | None => session_key (H ref) :: started_roots rest
      | Some _ => started_roots rest
      end
  | _ :: rest => started_roots rest
  end.

(** The sum, over the registered sessions, of a counter of the session's
    root suite as the host has it. *)
Definition sum_over (f : Suite.t -> N) (H : Heap) (m : gmap string Session.t) : N :=
  foldr (fun kv acc => (f (H (Session.suite kv.2)) + acc)%N) 0%N (map_to_list m).

(** Two sessions: A with 10 tests, 1 failed, none skipped, and B with 5
    tests, none failed, 2 skipped. *)
Definition suite_A : Suite.t := Suite.mk "A" "session-a" None None [] 10 1 0.
Definition suite_B : Suite.t := Suite.mk "B" "session-b" None None [] 5 0 2.
Definition heap_AB : Heap := fun ref => match ref with 0 => suite_A | _ => suite_B end.
Definition runner_reporter : Reporter :=
  new_Reporter "runner" {| file := None; mode := None |}.
Definition empty_world : World := mkWorld ∅ [] [].
Definition trace_AB : list (Heap * Event) :=
  [ (heap_AB, EvSuiteStart 0); (heap_AB, EvSuiteStart 1);
    (heap_AB, EvTestPass); (heap_AB, EvSuiteEnd 0); (heap_AB, EvSuiteEnd 1) ].

(** The words added to a summary after a fatal error. *)
Definition fatal_suffix : string := "; fatal error occurred".

(** [s] ends with [suffix]. *)
Definition ends_with (suffix s : string) : Prop := exists p, s = p +:+ suffix.

(** The characters of a string, last one first. *)
Fixpoint rchars (s : string) : list Ascii.ascii :=
  match s with
  | EmptyString => []
  | String a s' => rchars s' ++ [a]
  end.

(** The tests below a suite, at any depth. *)
Fixpoint descendant_tests (suite : Suite.t) : list Test.t :=
  flat_map (fun child =>
              match child with
              | inl test => [test]
              | inr s => descendant_tests s
              end)
           (Suite.tests suite).

(** The suites below a suite, at any depth. *)
Fixpoint descendant_suites (suite : Suite.t) : list Suite.t :=
  flat_map (fun child =>
              match child with
              | inl _ => []
              | inr s => s :: descendant_suites s
              end)
           (Suite.tests suite).

(** The suite itself or a test below it carries an error. *)
Definition error_in_tests (suite : Suite.t) : Prop :=
  is_Some (Suite.error suite)
  \/ exists test, test ∈ descendant_tests suite /\ is_Some (Test.error test).

(** The suite itself or a suite below it carries an error. *)
Definition error_in_suites (suite : Suite.t) : Prop :=
  is_Some (Suite.error suite)
  \/ exists s, s ∈ descendant_suites suite /\ is_Some (Suite.error s).

(** The summary of a root suite tells a fatal error exactly when the suite
    or a test below it carries an error. *)
Definition fatal_iff_error_in_tests (suite : Suite.t) : Prop :=
  ends_with fatal_suffix (suite_summary suite) <-> error_in_tests suite.

(** A root suite whose only test carries an error, with no test counted as
    failed. *)
Definition suite_with_test_error : Suite.t :=
  Suite.mk "root" "session-1" None None
           [inl (Test.mk "root - test" "session-1" 5
                         (Some {| errName := "Error"; errMessage := "boom";
                                  errGreaterThanZero := false |}))]
           1 0 0.

(** A root suite without an error of its own, above a suite that has one. *)
Definition suite_with_suite_error : Suite.t :=
  Suite.mk "root" "session-1" None None
           [inr (Suite.mk "inner" "session-1" (Some 0)
                          (Some {| errName := "Error"; errMessage := "setup";
                                   errGreaterThanZero := false |})
                          [] 0 0 0)]
           0 0 0.

(** The totals line is red with the fatal suffix whenever the flag is set,
    and green without the suffix when the flag is unset and no test
    failed. *)
Definition fatal_flag_forces_suffix (H : Heap) (r : Reporter) : Prop :=
  let t := totals H r in
  let line := total_line (hasErrors r) t in
  (hasErrors r = true ->
   outer_style line = Some red /\ ends_with fatal_suffix (plain line))
  /\ (hasErrors r = false -> numFailedTests t = 0%N ->
      outer_style line = Some green /\ ~ ends_with fatal_suffix (plain line)).

(** A reporter with the fatal-error flag set and session A, which has one
    failed test, registered. *)
Definition reporter_fatal_and_failed : Reporter :=
  {| sessions := {[ "session-a" := Session.mk 0 false ]};
     hasErrors := true;
     _collector := ∅;
     _errors := JsObject.empty;
     _filename := DEFAULT_COVERAGE_FILENAME;
     _mode := "runner" |}.

(** The same with session B, which has no failed test. *)
Definition reporter_fatal_no_failure : Reporter :=
  {| sessions := {[ "session-b" := Session.mk 1 false ]};
     hasErrors := true;
     _collector := ∅;
     _errors := JsObject.empty;
     _filename := DEFAULT_COVERAGE_FILENAME;
     _mode := "runner" |}.

(** The tests that a trace reports as failed, in the order of arrival. *)
Fixpoint failed_tests (trace : list (Heap * Event)) : list Test.t :=
  match trace with
  | [] => []
  | (_, EvTestFail test) :: rest => test :: failed_tests rest
  | _ :: rest => failed_tests rest
  end.



(** A test that fails, and a trace in which it fails twice with a failure
    of another session in between. *)
Definition flaky_test : Test.t :=
  Test.mk "suite - flaky" "session-a" 1500
          (Some {| errName := "AssertionError"; errMessage := "expected 1";
                   errGreaterThanZero := false |}).
Definition show_error (e : option ErrorObject) : string :=
  match e with
  | Some err => errName err +:+ ": " +:+ errMessage err
  | None => "undefined"
  end.


(** A call of [coverage] ended with the snapshot merged into the collector
    and the session of the call marked as having coverage. *)
Definition merged_and_marked (r : Reporter) (sessionId : string) (cov : Coverage)
    (o : Outcome Reporter) : Prop :=
  exists r',
    o = Done r'
    /\ _collector r' = Collector_add (_collector r) cov
    /\ exists session,
        sessions r' !! str_or sessionId "" = Some session
        /\ Session.coverage session = true.

(** A call of [coverage] merges and marks when the mode is "client" or the
    session identifier is not empty, and otherwise returns with the
    reporter as it was. *)
Definition accepted_exactly_when_attributable (r : Reporter) (sessionId : string)
    (cov : Coverage) : Prop :=
  (_mode r = "client" \/ sessionId <> "" ->
   merged_and_marked r sessionId cov (coverage sessionId cov r))
  /\ (~ (_mode r = "client" \/ sessionId <> "") ->
      coverage sessionId cov r = Done r).

(** A reporter in client mode, before any suite has started. *)
Definition client_reporter : Reporter :=
  new_Reporter "client" {| file := None; mode := None |}.

(** A snapshot with count 3 for file X. *)
Definition snapshot_X3 : Coverage := {[ "X" := 3%N ]}.

(** The reporter of a remote run after session A has registered. *)
Definition reporter_with_A : Reporter :=
  set_sessions {[ "session-a" := Session.mk 0 false ]} runner_reporter.

(** The snapshots that a trace delivers, and those among them that
    [coverage] accepts in a given mode. *)
Fixpoint delivered_snapshots (trace : list (Heap * Event)) : list Coverage :=
  match trace with
  | [] => []
  | (_, EvCoverage _ cov) :: rest => cov :: delivered_snapshots rest
  | _ :: rest => delivered_snapshots rest
  end.

Fixpoint accepted_snapshots (m : string) (trace : list (Heap * Event)) : list Coverage :=
  match trace with
  | [] => []
  | (_, EvCoverage sid cov) :: rest =>
      if String.eqb m "client" || truthy sid
      then cov :: accepted_snapshots m rest
      else accepted_snapshots m rest
  | _ :: rest => accepted_snapshots m rest
  end.

(** The counts that a list of snapshots has for a file, added up. *)
Definition sum_counts (X : string) (l : list Coverage) : N :=
  foldr (fun c acc => (count X c + acc)%N) 0%N l.

(** A trace of a run before its end, in which every snapshot that
    [coverage] accepts arrives after a root suite of its session started,
    and no failed test has a session identifier that names a member of
    [Object.prototype], for which [testFail] throws; [known] are the
    sessions registered so far. *)
Fixpoint attributed (m : string) (known : gset string) (trace : list (Heap * Event))
  : bool :=
  match trace with
  | [] => true
  | (H, EvSuiteStart ref) :: rest =>
      attributed m (match Suite.parent (H ref) with
                    | None => {[session_key (H ref)]} ∪ known
                    | Some _ => known
                    end) rest
  | (_, EvCoverage sid _) :: rest =>
      (if String.eqb m "client" || truthy sid
       then bool_decide (str_or sid "" ∈ known) else true)
      && attributed m known rest
  | (_, EvTestFail test) :: rest =>
      negb (inherited (Test.sessionId test)) && attributed m known rest
  | (_, EvRunEnd) :: _ => false
  | _ :: rest => attributed m known rest
  end.

(** A file of the artifact that [writeReport] leaves. *)
Definition report_file (c : Coverage) : File :=
  {| readable := true; contents := Json c |}.

(** The finalized artifact shows, for every file, the count of the
    artifact that was on disk plus the counts of all the snapshots
    delivered during the run. *)
Definition finalized_is_union (gem : option ErrorObject -> string) (st0 : State)
    (trace : list (Heap * Event)) (H : Heap) : Prop :=
  forall prior,
    readFileSync (fs st0.2) (_filename st0.1) = inr (Json prior) ->
    exists report,
      fs (final (run gem (trace ++ [(H, EvRunEnd)]) st0)).2 !! _filename st0.1
      = Some (report_file report)
      /\ forall X, count X report
                   = (count X prior + sum_counts X (delivered_snapshots trace))%N.

(** A prior artifact with count 5 for file X at the default path. *)
Definition world_prior_X5 : World :=
  mkWorld {[ DEFAULT_COVERAGE_FILENAME := report_file {[ "X" := 5%N ]} ]} [] [].

(** A remote run in which a snapshot arrives without a session identifier,
    and one in which it arrives for session A. *)
Definition trace_unattributed : list (Heap * Event) :=
  [ (heap_AB, EvSuiteStart 0); (heap_AB, EvCoverage "" snapshot_X3) ].
Definition trace_attributed : list (Heap * Event) :=
  [ (heap_AB, EvSuiteStart 0); (heap_AB, EvCoverage "session-a" snapshot_X3) ].

(** A reporter configured to write to [out.json]. *)
Definition custom_reporter : Reporter :=
  new_Reporter "runner" {| file := Some "out.json"; mode := None |}.


(** A file that is not JSON at the default path, and an artifact with
    count 5 for X at [out.json]. *)
Definition world_corrupt_default : World :=
  mkWorld (<[ DEFAULT_COVERAGE_FILENAME := {| readable := true; contents := Malformed |} ]>
             {[ "out.json" := report_file {[ "X" := 5%N ]} ]}) [] [].





(** ** Notions used for the further properties *)

(** What a test event writes to the output stream. *)
Definition glyph_of (ev : Event) : list Text :=
  match ev with
  | EvTestPass => [Sty green (Str "✓")]
  | EvTestFail _ => [Sty red (Str "×")]
  | EvTestSkip => [Sty grey (Str "~")]
  | EvSuiteStart _ | EvSuiteEnd _ | EvCoverage _ _ | EvRunEnd => []
  end.

(** The header that [runEnd] prints above the replayed failures. *)
Definition errors_header : LogCall :=
  [Sty red_bold (Str (nl +:+ "Reported Test Errors:" +:+ nl))].

(** A root suite that carries an error itself and counts no failed test. *)
Definition suite_with_own_error : Suite.t :=
  Suite.mk "root" "session-1" None
           (Some {| errName := "Error"; errMessage := "setup failed";
                    errGreaterThanZero := false |})
           [] 3 0 0.

(** A reporter in the default configuration whose collector holds count 4
    for file X. *)
Definition reporter_X4 : Reporter :=
  set_collector {[ "X" := 4%N ]} runner_reporter.

(** A trace with one test of each outcome. *)
Definition trace_outcomes : list (Heap * Event) :=
  [ (heap_AB, EvSuiteStart 0); (heap_AB, EvTestPass);
    (heap_AB, EvTestFail flaky_test); (heap_AB, EvTestSkip);
    (heap_AB, EvTestPass); (heap_AB, EvSuiteEnd 0) ].


(** * Properties *)

(** ** Strings *)

Lemma truthy_true (s : string) : truthy s = true <-> s <> "".
Proof.
  unfold truthy. rewrite negb_true_iff. apply String.eqb_neq.
Qed.

Lemma truthy_false (s : string) : truthy s = false <-> s = "".
Proof.
  unfold truthy. rewrite negb_false_iff. apply String.eqb_eq.
Qed.

Lemma str_or_truthy (s d : string) : s <> "" -> str_or s d = s.
Proof.
  intros Hs. unfold str_or. apply truthy_true in Hs. now rewrite Hs.
Qed.

Lemma str_or_empty (d : string) : str_or "" d = d.
Proof. reflexivity. Qed.

(** ** [suiteStart] *)

Lemma suiteStart_root (suite : Suite.t) (ref : SuiteRef) (r : Reporter) (w : World) :
  Suite.parent suite = None ->
  suiteStart suite ref (r, w)
  = (set_sessions (<[str_or (Suite.sessionId suite) "" := Session.mk ref false]>
                     (sessions r)) r,
     if truthy (Suite.sessionId suite)
     then console_log [Str (nl +:+ "‣ Created session " +:+ Suite.name suite
                            +:+ " (" +:+ Suite.sessionId suite +:+ ")")] w
     else w).
Proof.
  intros Hp. unfold suiteStart. rewrite Hp.
  now destruct (truthy (Suite.sessionId suite)).
Qed.

Lemma suiteStart_child (suite : Suite.t) (ref : SuiteRef) (st : State) :
  Suite.parent suite <> None -> suiteStart suite ref st = st.
Proof.
  intros Hp. destruct st as [r w]. unfold suiteStart.
  destruct (Suite.parent suite); [reflexivity | congruence].
Qed.

(** C9.  [suiteStart] never throws.  For a suite without a parent, the
    entry of [sessions] under the suite's session identifier (the empty
    string when it has none) becomes a fresh [{ suite }] object, whatever
    was registered there before, and no other entry changes; the line
    "Created session <name> (<sessionId>)" is logged when the identifier
    is non-empty and nothing is logged when it is empty.  For a suite with
    a parent the state does not change. *)
Theorem suiteStart_registers_root
    (gem : option ErrorObject -> string) (H : Heap) (ref : SuiteRef) (st : State) :
  let suite := H ref in
  let key := str_or (Suite.sessionId suite) "" in
  exists st' : State,
    step gem H (EvSuiteStart ref) st = Done st'
    /\ (Suite.parent suite = None ->
        sessions st'.1 !! key = Some (Session.mk ref false)
        /\ (forall k, k <> key -> sessions st'.1 !! k = sessions st.1 !! k)
        /\ (is_Some (sessions st.1 !! key) -> size (sessions st'.1) = size (sessions st.1))
        /\ hasErrors st'.1 = hasErrors st.1
        /\ _collector st'.1 = _collector st.1
        /\ _errors st'.1 = _errors st.1
        /\ _filename st'.1 = _filename st.1
        /\ _mode st'.1 = _mode st.1
        /\ fs st'.2 = fs st.2
        /\ output st'.2 = output st.2
        /\ (Suite.sessionId suite <> "" ->
            console st'.2
            = console st.2
              ++ [[Str (nl +:+ "‣ Created session " +:+ Suite.name suite
                        +:+ " (" +:+ Suite.sessionId suite +:+ ")")]])
        /\ (Suite.sessionId suite = "" -> console st'.2 = console st.2))
    /\ (Suite.parent suite <> None -> st' = st).
Proof.
  intros suite key. destruct st as [r w].
  exists (suiteStart suite ref (r, w)). split; [reflexivity |]. split.
  - intros Hp. rewrite (suiteStart_root _ _ _ _ Hp). fold key. cbn [fst snd].
    repeat split.
    + cbn. apply lookup_insert_eq.
    + intros k Hk. cbn. now apply lookup_insert_ne.
    + intros Hsome. cbn. now apply map_size_insert_Some.
    + now destruct (truthy (Suite.sessionId suite)).
    + now destruct (truthy (Suite.sessionId suite)).
    + intros Hs. apply truthy_true in Hs. now rewrite Hs.
    + intros Hs. apply truthy_false in Hs. now rewrite Hs.
  - intros Hp. now apply suiteStart_child.
Qed.

Lemma suiteStart_registers_root_witness :
  exists st' : State,
    step show_error heap_AB (EvSuiteStart 0) (runner_reporter, empty_world) = Done st'
    /\ sessions st'.1 !! "session-a" = Some (Session.mk 0 false)
    /\ console st'.2 = [[Str (nl +:+ "‣ Created session A (session-a)")]].
Proof.
  destruct (suiteStart_registers_root show_error heap_AB 0 (runner_reporter, empty_world))
    as (st' & Hstep & Hroot & _).
  destruct (Hroot eq_refl) as (Hs & _ & _ & _ & _ & _ & _ & _ & _ & _ & Hlog & _).
  exists st'. split; [exact Hstep |]. split; [exact Hs |].
  apply Hlog. discriminate.
Defined.

(** ** [coverage] *)

Lemma accepts_iff (r : Reporter) (sessionId : string) :
  accepts r sessionId = true <-> _mode r = "client" \/ sessionId <> "".
Proof.
  unfold accepts. rewrite orb_true_iff, String.eqb_eq, truthy_true. tauto.
Qed.

Lemma coverage_rejected (r : Reporter) (sessionId : string) (cov : Coverage) :
  accepts r sessionId = false -> coverage sessionId cov r = Done r.
Proof.
  intros Ha. unfold coverage. fold (accepts r sessionId). now rewrite Ha.
Qed.

Lemma coverage_registered (r : Reporter) (sessionId : string) (cov : Coverage)
    (session : Session.t) :
  accepts r sessionId = true ->
  sessions r !! str_or sessionId "" = Some session ->
  coverage sessionId cov r
  = Done (set_collector (Collector_add (_collector r) cov)
            (set_sessions (<[str_or sessionId "" := Session.mk (Session.suite session) true]>
                             (sessions r)) r)).
Proof.
  intros Ha Hs. unfold coverage. fold (accepts r sessionId). now rewrite Ha, Hs.
Qed.



(** ** What the events do to the reporter *)

Lemma register_spec (H : Heap) (ref : SuiteRef) (st : State) :
  sessions (suiteStart (H ref) ref st).1 = register H ref (sessions st.1).
Proof.
  destruct st as [r w]. unfold suiteStart, register, session_key.
  destruct (Suite.parent (H ref)); [reflexivity |].
  now destruct (truthy (Suite.sessionId (H ref))).
Qed.

(** [testFail] returns unless the session identifier names a member of
    [Object.prototype] and has no list in the ledger; when it throws, the
    state is as it was. *)
Lemma testFail_cases (gem : option ErrorObject -> string) (test : Test.t)
    (r : Reporter) (w : World) :
  (exists what, testFail gem test (r, w) = Thrown (TypeError what) (r, w)
                /\ JsObject.get (Test.sessionId test) (_errors r) = None
                /\ inherited (Test.sessionId test) = true)
  \/ (exists errors,
         testFail gem test (r, w)
         = Done (set_errors errors r, output_write (Sty red (Str "×")) w)
         /\ errors
            = (let errors0 :=
                 match JsObject.get (Test.sessionId test) (_errors r) with
                 | None => JsObject.set (Test.sessionId test) [] (_errors r)
                 | Some _ => _errors r
                 end in
               JsObject.set (Test.sessionId test)
                 (default [] (JsObject.get (Test.sessionId test) errors0)
                  ++ [entry_of gem test])
                 errors0)
         /\ (is_Some (JsObject.get (Test.sessionId test) (_errors r))
             \/ inherited (Test.sessionId test) = false)).
Proof.
  unfold testFail.
  destruct (JsObject.get (Test.sessionId test) (_errors r)) as [l |] eqn:Hg.
  - right. eexists. split; [reflexivity |]. split; [reflexivity |]. left. eauto.
  - destruct (inherited (Test.sessionId test)) eqn:Hi.
    + left. eexists. now split.
    + right. eexists. split; [reflexivity |]. split; [| now right].
      reflexivity.
Qed.

Lemma testFail_plain (gem : option ErrorObject -> string) (test : Test.t) (st : State) :
  inherited (Test.sessionId test) = false ->
  exists st', testFail gem test st = Done st'.
Proof.
  intros Hi. destruct st as [r w].
  destruct (testFail_cases gem test r w) as [(what & _ & _ & Hi') | (errors & -> & _)];
    [congruence | eauto].
Qed.

(** The registry, the collector, the configuration and the files are left
    alone by the suite and test events, whether the handler returns or
    throws. *)
Lemma step_lifecycle_final (gem : option ErrorObject -> string) (H : Heap) (ev : Event)
    (st : State) :
  is_lifecycle ev = true ->
  let st' := final (step gem H ev st) in
  sessions st'.1 = registered [(H, ev)] (sessions st.1)
  /\ hasErrors st'.1 = hasErrors st.1
  /\ _collector st'.1 = _collector st.1
  /\ _filename st'.1 = _filename st.1
  /\ _mode st'.1 = _mode st.1
  /\ fs st'.2 = fs st.2.
Proof.
  destruct st as [r w].
  destruct ev as [ref | ref | | test | | sid cov |]; cbn [is_lifecycle]; try discriminate;
    intros _; cbn [step final registered].
  - rewrite register_spec. unfold suiteStart.
    destruct (Suite.parent (H ref)); [now cbn |].
    now destruct (truthy (Suite.sessionId (H ref))).
  - unfold suiteEnd.
    now destruct (bool_decide _ || String.eqb _ _ || negb _).
  - now cbn.
  - destruct (testFail_cases gem test r w) as [(what & -> & _) | (errors & -> & _)];
      now cbn.
  - now cbn.
Qed.

Lemma step_lifecycle (gem : option ErrorObject -> string) (H : Heap) (ev : Event)
    (st : State) :
  is_lifecycle ev = true ->
  Forall (fun test => inherited (Test.sessionId test) = false) (failed_tests [(H, ev)]) ->
  exists st' : State,
    step gem H ev st = Done st'
    /\ sessions st'.1 = registered [(H, ev)] (sessions st.1)
    /\ hasErrors st'.1 = hasErrors st.1
    /\ _collector st'.1 = _collector st.1
    /\ _filename st'.1 = _filename st.1
    /\ _mode st'.1 = _mode st.1
    /\ fs st'.2 = fs st.2.
Proof.
  intros Hev Hplain.
  pose proof (step_lifecycle_final gem H ev st Hev) as Hfinal.
  assert (Hdone : exists st', step gem H ev st = Done st').
  { destruct ev as [ref | ref | | test | | sid cov |]; cbn [step]; try discriminate;
      eauto.
    apply testFail_plain. cbn in Hplain. now apply Forall_cons in Hplain as [Hp _]. }
  destruct Hdone as [st' Hdone]. rewrite Hdone in Hfinal.
  exists st'. now split.
Qed.

Lemma failed_tests_cons (H : Heap) (ev : Event) (rest : list (Heap * Event)) :
  failed_tests ((H, ev) :: rest) = failed_tests [(H, ev)] ++ failed_tests rest.
Proof. now destruct ev. Qed.

Lemma run_lifecycle (gem : option ErrorObject -> string) (trace : list (Heap * Event))
    (st : State) :
  Forall (fun he => is_lifecycle he.2 = true) trace ->
  Forall (fun test => inherited (Test.sessionId test) = false) (failed_tests trace) ->
  exists st' : State,
    run gem trace st = Done st'
    /\ sessions st'.1 = registered trace (sessions st.1)
    /\ hasErrors st'.1 = hasErrors st.1
    /\ _collector st'.1 = _collector st.1
    /\ _filename st'.1 = _filename st.1
    /\ _mode st'.1 = _mode st.1
    /\ fs st'.2 = fs st.2.
Proof.
  intros Hall. revert st.
  induction Hall as [| [H ev] rest Hev _ IH]; intros st Hplain.
  - exists st. now cbn.
  - rewrite failed_tests_cons in Hplain. apply Forall_app in Hplain as [Hp1 Hp2].
    destruct (step_lifecycle gem H ev st Hev Hp1)
      as (st1 & Hstep & Hs & He & Hc & Hf & Hm & Hfs).
    destruct (IH st1 Hp2) as (st2 & Hrun & Hs2 & He2 & Hc2 & Hf2 & Hm2 & Hfs2).
    exists st2. cbn [run]. rewrite Hstep. split; [exact Hrun |].
    rewrite Hs2, He2, Hc2, Hf2, Hm2, Hfs2, Hs, He, Hc, Hf, Hm, Hfs.
    repeat split. cbn in Hev.
    destruct ev; cbn [registered]; try reflexivity; discriminate.
Qed.

(** A host that goes on after an exception reaches the same registry. *)
Lemma deliver_lifecycle (gem : option ErrorObject -> string) (trace : list (Heap * Event))
    (st : State) :
  Forall (fun he => is_lifecycle he.2 = true) trace ->
  let st' := deliver gem trace st in
  sessions st'.1 = registered trace (sessions st.1)
  /\ hasErrors st'.1 = hasErrors st.1
  /\ _collector st'.1 = _collector st.1
  /\ _filename st'.1 = _filename st.1
  /\ _mode st'.1 = _mode st.1
  /\ fs st'.2 = fs st.2.
Proof.
  intros Hall. revert st.
  induction Hall as [| [H ev] rest Hev _ IH]; intros st; [now cbn |].
  cbn [deliver].
  destruct (step_lifecycle_final gem H ev st Hev) as (Hs & He & Hc & Hf & Hm & Hfs).
  destruct (IH (final (step gem H ev st))) as (Hs2 & He2 & Hc2 & Hf2 & Hm2 & Hfs2).
  cbn zeta. rewrite Hs2, He2, Hc2, Hf2, Hm2, Hfs2, Hs, He, Hc, Hf, Hm, Hfs.
  repeat split. cbn in Hev.
  destruct ev; cbn [registered]; try reflexivity; discriminate.
Qed.

(** When no handler throws, the two deliveries agree. *)
Lemma run_deliver (gem : option ErrorObject -> string) (trace : list (Heap * Event))
    (st st' : State) :
  run gem trace st = Done st' -> deliver gem trace st = st'.
Proof.
  revert st. induction trace as [| [H ev] rest IH]; intros st Hrun.
  - cbn in *. now injection Hrun.
  - cbn [run deliver] in *.
    destruct (step gem H ev st) as [st1 | e st1]; [| discriminate].
    now apply IH.
Qed.

Lemma registered_dom (trace : list (Heap * Event)) (m : gmap string Session.t)
    (k : string) :
  is_Some (registered trace m !! k) <-> is_Some (m !! k) \/ k ∈ started_roots trace.
Proof.
  revert m. induction trace as [| [H ev] rest IH]; intros m.
  - cbn. rewrite elem_of_nil. tauto.
  - destruct ev as [ref | | | | | |]; cbn [registered started_roots];
      try apply IH.
    rewrite IH. unfold register.
    destruct (Suite.parent (H ref)); [tauto |].
    rewrite elem_of_cons. rewrite lookup_insert_is_Some.
    split.
    + intros [[-> | [_ Hm]] | Hin]; auto.
    + intros [Hm | [-> | Hin]]; auto.
      destruct (decide (session_key (H ref) = k)); auto.
Qed.

(** ** The totals of [runEnd] *)

Lemma totals_foldr (H : Heap) (l : list (string * Session.t)) :
  foldr (uncurry (fun (_ : string) session acc => add_session H session acc))
        (mkTotals 0 0 0 0) l
  = {| numEnvironments := N.of_nat (length l);
       numTests :=
         foldr (fun kv acc => (Suite.numTests (H (Session.suite kv.2)) + acc)%N) 0%N l;
       numFailedTests :=
         foldr (fun kv acc => (Suite.numFailedTests (H (Session.suite kv.2)) + acc)%N) 0%N l;
       numSkippedTests :=
         foldr (fun kv acc => (Suite.numSkippedTests (H (Session.suite kv.2)) + acc)%N) 0%N l |}.
Proof.
  induction l as [| [k s] l IH]; [reflexivity |].
  cbn [foldr uncurry length]. rewrite IH. unfold add_session. cbn.
  f_equal; lia.
Qed.

Lemma totals_sums (H : Heap) (r : Reporter) :
  totals H r
  = {| numEnvironments := N.of_nat (size (sessions r));
       numTests := sum_over Suite.numTests H (sessions r);
       numFailedTests := sum_over Suite.numFailedTests H (sessions r);
       numSkippedTests := sum_over Suite.numSkippedTests H (sessions r) |}.
Proof.
  unfold totals. rewrite map_fold_foldr, totals_foldr.
  now rewrite length_map_to_list.
Qed.

(** A session that is not yet in the registry adds its own counters, once. *)
Lemma totals_insert (H : Heap) (r : Reporter) (k : string) (s : Session.t) :
  sessions r !! k = None ->
  totals H (set_sessions (<[k := s]> (sessions r)) r) = add_session H s (totals H r).
Proof.
  intros Hk. unfold totals. cbn [sessions set_sessions].
  apply (map_fold_insert_L (fun _ session acc => add_session H session acc)); [| exact Hk].
  intros j1 j2 z1 z2 y _ _ _. unfold add_session. cbn. f_equal; lia.
Qed.

(** ** The end of a rendered line *)

Lemma append_cons (x : Ascii.ascii) (a b : string) :
  String x a +:+ b = String x (a +:+ b).
Proof. reflexivity. Qed.

Lemma append_assoc (a b c : string) : (a +:+ b) +:+ c = a +:+ (b +:+ c).
Proof.
  induction a as [| x a IH]; [reflexivity |].
  now rewrite !append_cons, IH.
Qed.

Lemma append_empty_r (a : string) : a +:+ "" = a.
Proof.
  induction a as [| x a IH]; [reflexivity |].
  now rewrite append_cons, IH.
Qed.

Lemma rchars_append (a b : string) : rchars (a +:+ b) = rchars b ++ rchars a.
Proof.
  induction a as [| x a IH].
  - change ("" +:+ b) with b. cbn. now rewrite app_nil_r.
  - rewrite append_cons. cbn. now rewrite IH, app_assoc.
Qed.

Lemma ends_with_append (suffix p : string) : ends_with suffix (p +:+ suffix).
Proof. now exists p. Qed.

Lemma ends_with_rchars (suffix s : string) :
  ends_with suffix s -> exists l, rchars s = rchars suffix ++ l.
Proof. intros [p ->]. exists (rchars p). apply rchars_append. Qed.

Lemma failed_not_fatal (x : string) : ~ ends_with fatal_suffix (x +:+ " failed").
Proof.
  intros He. apply ends_with_rchars in He as [l Hl].
  rewrite rchars_append in Hl. cbn in Hl. discriminate.
Qed.

Lemma skipped_not_fatal (x : string) : ~ ends_with fatal_suffix (x +:+ " skipped)").
Proof.
  intros He. apply ends_with_rchars in He as [l Hl].
  rewrite rchars_append in Hl. cbn in Hl. discriminate.
Qed.

(** The text of the totals line, piece by piece. *)
Lemma total_line_text (hasErrs : bool) (t : Totals) :
  plain (total_line hasErrs t)
  = (nl +:+ "TOTAL") +:+ ": tested " +:+ pretty (numEnvironments t)
    +:+ " platforms, " +:+ pretty (numFailedTests t) +:+ "/"
    +:+ pretty (numTests t) +:+ " failed"
    +:+ (if negb (numSkippedTests t =? 0)%N
         then " (" +:+ pretty (numSkippedTests t) +:+ " skipped)" else "")
    +:+ (if hasErrs && (numFailedTests t =? 0)%N then fatal_suffix else "").
Proof.
  unfold total_line, total_message, fatal_suffix. cbn [plain].
  destruct (negb (numSkippedTests t =? 0)%N), (hasErrs && (numFailedTests t =? 0)%N);
    cbn [plain]; rewrite ?append_assoc, ?append_empty_r; reflexivity.
Qed.

Lemma total_line_fatal (hasErrs : bool) (t : Totals) :
  ends_with fatal_suffix (plain (total_line hasErrs t))
  <-> hasErrs = true /\ numFailedTests t = 0%N.
Proof.
  rewrite total_line_text.
  rewrite <- N.eqb_eq, <- andb_true_iff.
  destruct (hasErrs && (numFailedTests t =? 0)%N).
  - split; [reflexivity | intros _].
    rewrite <- !append_assoc. apply ends_with_append.
  - split; [| discriminate]. intros He. exfalso. revert He.
    destruct (negb (numSkippedTests t =? 0)%N).
    + rewrite append_empty_r, <- !append_assoc. apply skipped_not_fatal.
    + rewrite !append_empty_r, <- !append_assoc. apply failed_not_fatal.
Qed.

(** ** What [runEnd] prints *)

Lemma writeCoverage_keeps (st : State) :
  let st' := final (_writeCoverage st) in
  console st'.2 = console st.2
  /\ output st'.2 = output st.2
  /\ sessions st'.1 = sessions st.1
  /\ hasErrors st'.1 = hasErrors st.1
  /\ _errors st'.1 = _errors st.1
  /\ _filename st'.1 = _filename st.1
  /\ _mode st'.1 = _mode st.1.
Proof.
  destruct st as [r w]. unfold _writeCoverage.
  destruct (checkCoverageFinal (fs w)); [| now cbn].
  destruct (readFileSync (fs w) (_filename r)) as [e | text]; [now cbn |].
  destruct (JSON_parse text) as [e | [previous |]]; now cbn.
Qed.

Lemma runEnd_console (H : Heap) (r : Reporter) (w : World) :
  console (final (runEnd H (r, w))).2 = console w ++ runEnd_logs H r.
Proof.
  unfold runEnd.
  now destruct (writeCoverage_keeps (r, mkWorld (fs w) (console w ++ runEnd_logs H r) (output w)))
    as [-> _].
Qed.

Lemma runEnd_last_line (H : Heap) (r : Reporter) (w : World) :
  last (console (final (runEnd H (r, w))).2)
  = Some [total_line (hasErrors r) (totals H r)].
Proof.
  rewrite runEnd_console. unfold runEnd_logs.
  rewrite !app_assoc. apply last_snoc.
Qed.

(** C2.  After any sequence of suite and test events, delivered to a
    reporter in any state (the host going on when a handler throws; when
    no failed test has a session identifier naming a member of
    [Object.prototype] no handler throws), the registry holds the sessions
    that root suites registered (each identifier once, with the root
    suite that started last under it, none missing); the totals line
    that [runEnd] prints then reads "TOTAL: tested n platforms, f/t
    failed", followed by " (s skipped)" when s is not zero and by the
    fatal-error suffix when the flag is set and f is zero, where n is the
    number of sessions of the registry and t, f and s are the sums of the
    counters of the sessions' root suites.  With session A at 10/1/0 and
    session B at 5/0/2 the line reads "TOTAL: tested 2 platforms, 1/15
    failed (2 skipped)". *)
Theorem runEnd_totals_are_registry_sums
    (gem : option ErrorObject -> string) (trace : list (Heap * Event))
    (r0 : Reporter) (w0 : World) :
  Forall (fun he => is_lifecycle he.2 = true) trace ->
  (let st := deliver gem trace (r0, w0) in
   (Forall (fun test => inherited (Test.sessionId test) = false) (failed_tests trace) ->
    run gem trace (r0, w0) = Done st)
   /\ sessions st.1 = registered trace (sessions r0)
   /\ (forall k, is_Some (sessions st.1 !! k)
                 <-> is_Some (sessions r0 !! k) \/ k ∈ started_roots trace)
   /\ forall H : Heap,
       let n := N.of_nat (size (sessions st.1)) in
       let t := sum_over Suite.numTests H (sessions st.1) in
       let f := sum_over Suite.numFailedTests H (sessions st.1) in
       let s := sum_over Suite.numSkippedTests H (sessions st.1) in
       totals H st.1
       = {| numEnvironments := n; numTests := t;
            numFailedTests := f; numSkippedTests := s |}
       /\ log_plain <$> last (console (final (runEnd H st)).2)
          = Some (nl +:+ "TOTAL: tested " +:+ pretty n +:+ " platforms, "
                  +:+ pretty f +:+ "/" +:+ pretty t +:+ " failed"
                  +:+ (if (s =? 0)%N then "" else " (" +:+ pretty s +:+ " skipped)")
                  +:+ (if hasErrors r0 && (f =? 0)%N
                       then "; fatal error occurred" else "")))
  /\ log_plain <$> last (console (final (run gem (trace_AB ++ [(heap_AB, EvRunEnd)])
                                             (runner_reporter, empty_world))).2)
     = Some (nl +:+ "TOTAL: tested 2 platforms, 1/15 failed (2 skipped)").
Proof.
  intros Hall. split; [| vm_compute; reflexivity].
  destruct (deliver_lifecycle gem trace (r0, w0) Hall) as (Hs & He & _).
  cbn [fst snd] in Hs, He. cbn zeta.
  set (st := deliver gem trace (r0, w0)) in *.
  split; [| split; [exact Hs | split]].
  - intros Hplain.
    destruct (run_lifecycle gem trace (r0, w0) Hall Hplain) as (st' & Hrun & _).
    rewrite Hrun. f_equal. symmetry. now apply run_deliver.
  - intros k. rewrite Hs. apply registered_dom.
  - intros H. split; [apply totals_sums |].
    destruct st as [r w]. rewrite runEnd_last_line. cbn [fmap option_fmap option_map log_plain].
    rewrite total_line_text, totals_sums.
    cbn [numEnvironments numTests numFailedTests numSkippedTests fst].
    cbn [fst] in He. rewrite He. f_equal.
    destruct (sum_over Suite.numSkippedTests H (sessions r) =? 0)%N; cbn [negb];
      unfold fatal_suffix; rewrite ?append_assoc; reflexivity.
Qed.

Lemma runEnd_totals_are_registry_sums_witness :
  run (fun _ => "") trace_AB (runner_reporter, empty_world)
  = Done (deliver (fun _ => "") trace_AB (runner_reporter, empty_world))
  /\ totals heap_AB (deliver (fun _ => "") trace_AB (runner_reporter, empty_world)).1
     = mkTotals 2 15 1 2
  /\ log_plain <$> last (console (final (runEnd heap_AB
         (deliver (fun _ => "") trace_AB (runner_reporter, empty_world)))).2)
     = Some (nl +:+ "TOTAL: tested 2 platforms, 1/15 failed (2 skipped)").
Proof.
  destruct (runEnd_totals_are_registry_sums (fun _ => "") trace_AB
              runner_reporter empty_world)
    as [(Hrun & _ & _ & Ht) _].
  - repeat constructor.
  - split; [apply Hrun; vm_compute; constructor |].
    destruct (Ht heap_AB) as [Htot Hline].
    split; [rewrite Htot; vm_compute; reflexivity |].
    rewrite Hline. vm_compute. reflexivity.
Defined.

Lemma total_line_style (hasErrs : bool) (t : Totals) :
  outer_style (total_line hasErrs t)
  = Some (if hasErrs || negb (numFailedTests t =? 0)%N then red else green).
Proof.
  unfold total_line. cbn [outer_style].
  replace (0 <? numFailedTests t)%N with (negb (numFailedTests t =? 0)%N).
  - now rewrite orb_comm.
  - destruct (numFailedTests t =? 0)%N eqn:Hf; cbn; symmetry.
    + apply N.eqb_eq in Hf. rewrite Hf. reflexivity.
    + apply N.eqb_neq in Hf. apply N.ltb_lt. lia.
Qed.

(** C7, as amended.  The totals line that [runEnd] prints is red exactly
    when the fatal-error flag is set or a test failed, and green exactly
    when the flag is unset and no test failed; it ends with "; fatal error
    occurred" exactly when the flag is set and no test failed.  So with
    the flag set the line is red, and it carries the suffix when the
    failed count is zero but not when tests failed. *)
Theorem total_line_fatal_flag (H : Heap) (r : Reporter) (w : World) :
  let t := totals H r in
  let line := total_line (hasErrors r) t in
  last (console (final (runEnd H (r, w))).2) = Some [line]
  /\ (outer_style line = Some red <-> hasErrors r = true \/ numFailedTests t <> 0%N)
  /\ (outer_style line = Some green <-> hasErrors r = false /\ numFailedTests t = 0%N)
  /\ (ends_with fatal_suffix (plain line) <-> hasErrors r = true /\ numFailedTests t = 0%N).
Proof.
  intros t line. split; [apply runEnd_last_line |].
  split; [| split; [| apply total_line_fatal]].
  - unfold line. rewrite total_line_style.
    destruct (hasErrors r), (numFailedTests t =? 0)%N eqn:Hf; cbn;
      (apply N.eqb_eq in Hf || apply N.eqb_neq in Hf);
      split; intros Hx; try discriminate; auto;
      destruct Hx; congruence.
  - unfold line. rewrite total_line_style.
    destruct (hasErrors r), (numFailedTests t =? 0)%N eqn:Hf; cbn;
      (apply N.eqb_eq in Hf || apply N.eqb_neq in Hf);
      split; intros Hx; try discriminate; auto;
      destruct Hx; congruence.
Qed.

Lemma total_line_fatal_flag_witness :
  outer_style (total_line true (totals heap_AB reporter_fatal_no_failure)) = Some red
  /\ ends_with fatal_suffix
       (plain (total_line true (totals heap_AB reporter_fatal_no_failure)))
  /\ ~ ends_with fatal_suffix
         (plain (total_line true (totals heap_AB reporter_fatal_and_failed))).
Proof.
  destruct (total_line_fatal_flag heap_AB reporter_fatal_no_failure empty_world)
    as (_ & Hred & _ & Hsuffix).
  destruct (total_line_fatal_flag heap_AB reporter_fatal_and_failed empty_world)
    as (_ & _ & _ & Hnone).
  split; [apply Hred; now left |].
  split; [apply Hsuffix; split; reflexivity |].
  intros Hend. apply Hnone in Hend as [_ Hzero]. vm_compute in Hzero. discriminate.
Defined.

(** C7 as the specification words it fails: with the flag set and a failed
    test, the line is red but does not carry the suffix. *)
Lemma fatal_flag_with_failures_no_suffix :
  ~ fatal_flag_forces_suffix heap_AB reporter_fatal_and_failed.
Proof.
  intros [Hset _]. destruct (Hset eq_refl) as [_ Hend].
  apply total_line_fatal in Hend as [_ Hzero].
  vm_compute in Hzero. discriminate.
Qed.

(** ** [hasError] and the summary of a suite *)

(** Induction on a suite tree: a property holds of a suite when it holds
    of its child suites. *)
Lemma suite_tree_ind (P : Suite.t -> Prop) :
  (forall suite,
      (forall s, inr s ∈ Suite.tests suite -> P s) -> P suite) ->
  forall suite, P suite.
Proof.
  intros IH. fix rec 1. intros [n sid p e ts nt nf ns]. apply IH. cbn.
  induction ts as [| [test | s] ts IHts]; intros s' Hin.
  - apply elem_of_nil in Hin. destruct Hin.
  - apply elem_of_cons in Hin as [Heq | Hin]; [discriminate | now apply IHts].
  - apply elem_of_cons in Hin as [Heq | Hin]; [| now apply IHts].
    injection Heq as ->. apply rec.
Qed.

Lemma descendant_suites_child (suite s s' : Suite.t) :
  inr s ∈ Suite.tests suite ->
  s' = s \/ s' ∈ descendant_suites s ->
  s' ∈ descendant_suites suite.
Proof.
  intros Hin Hs'. destruct suite as [n sid p e ts nt nf ns]. cbn in *.
  apply list_elem_of_In, in_flat_map. exists (inr s).
  split; [now apply list_elem_of_In |].
  apply list_elem_of_In, elem_of_cons. exact Hs'.
Qed.

Lemma descendant_suites_inv (suite s' : Suite.t) :
  s' ∈ descendant_suites suite ->
  exists s, inr s ∈ Suite.tests suite /\ (s' = s \/ s' ∈ descendant_suites s).
Proof.
  destruct suite as [n sid p e ts nt nf ns]. cbn.
  intros Hin. apply list_elem_of_In, in_flat_map in Hin as ([test | s] & Hc & Hs).
  - destruct Hs.
  - exists s. split; [now apply list_elem_of_In |].
    now apply list_elem_of_In, elem_of_cons in Hs.
Qed.

(** [hasError] is truthy exactly when the suite or a suite below it
    carries an error; the errors of tests play no part. *)
Lemma hasError_error_in_suites (suite : Suite.t) :
  to_boolean (hasError suite) = true <-> error_in_suites suite.
Proof.
  induction suite as [suite IH] using suite_tree_ind.
  unfold error_in_suites.
  destruct suite as [n sid p e ts nt nf ns]. cbn [hasError Suite.error Suite.tests] in *.
  destruct e as [e |]; cbn [to_boolean].
  - split; [intros _; left; eauto | reflexivity].
  - rewrite existsb_exists. split.
    + intros ([test | s] & Hin & Hs); [discriminate |].
      apply list_elem_of_In in Hin.
      apply (IH s Hin) in Hs as [Hown | (s' & Hs' & He)]; right.
      * exists s. split; [| exact Hown].
        apply (descendant_suites_child _ s); [exact Hin | now left].
      * exists s'. split; [| exact He].
        apply (descendant_suites_child _ s); [exact Hin | now right].
    + intros [[x Hx] | (s' & Hs' & He)]; [discriminate |].
      apply descendant_suites_inv in Hs' as (s & Hin & Hs').
      cbn [Suite.tests] in Hin.
      exists (inr s). split; [now apply list_elem_of_In |].
      apply (IH s Hin). destruct Hs' as [-> | Hs'].
      * now left.
      * right. now exists s'.
Qed.

Lemma tests_failed_not_fatal (x : string) :
  ~ ends_with fatal_suffix (x +:+ " tests failed").
Proof.
  change " tests failed" with (" tests" +:+ " failed").
  rewrite <- append_assoc. apply failed_not_fatal.
Qed.

Lemma suite_summary_fatal (suite : Suite.t) :
  ends_with fatal_suffix (suite_summary suite) <-> to_boolean (hasError suite) = true.
Proof.
  unfold suite_summary.
  destruct (to_boolean (hasError suite)).
  - split; [reflexivity | intros _]. apply ends_with_append.
  - split; [| discriminate]. intros He. exfalso. revert He.
    destruct (negb (Suite.numSkippedTests suite =? 0)%N).
    + rewrite <- !append_assoc. apply skipped_not_fatal.
    + rewrite <- !append_assoc. apply tests_failed_not_fatal.
Qed.

Lemma suiteEnd_root (suite : Suite.t) (r : Reporter) (w : World) :
  Suite.parent suite = None ->
  _mode r <> "client" ->
  Suite.sessionId suite <> "" ->
  suiteEnd suite (r, w)
  = (r, console_log [Cat (Sty (suite_style suite) (Str (suite_summary suite)))
                         (Str nl)]
          (console_log [Str nl] w)).
Proof.
  intros Hp Hm Hs. unfold suiteEnd. rewrite Hp.
  apply String.eqb_neq in Hm. apply truthy_true in Hs. rewrite Hm, Hs.
  reflexivity.
Qed.

(** C3, as amended.  For a root suite that ends outside client mode with
    a session identifier, [suiteEnd] logs the summary of the suite, and
    the summary ends with "; fatal error occurred" exactly when the suite
    itself or a suite below it carries an error.  An error carried by a
    test does not count. *)
Theorem suiteEnd_fatal_iff_suite_error (suite : Suite.t) (r : Reporter) (w : World) :
  Suite.parent suite = None ->
  _mode r <> "client" ->
  Suite.sessionId suite <> "" ->
  (exists style : Style,
      last (console (suiteEnd suite (r, w)).2)
      = Some [Cat (Sty style (Str (suite_summary suite))) (Str nl)])
  /\ (ends_with fatal_suffix (suite_summary suite) <-> error_in_suites suite).
Proof.
  intros Hp Hm Hs. split.
  - exists (suite_style suite). rewrite (suiteEnd_root _ _ _ Hp Hm Hs).
    cbn. apply last_snoc.
  - rewrite suite_summary_fatal. apply hasError_error_in_suites.
Qed.

Lemma suiteEnd_fatal_iff_suite_error_witness :
  ends_with fatal_suffix (suite_summary suite_with_suite_error)
  /\ ~ ends_with fatal_suffix (suite_summary suite_with_test_error).
Proof.
  split.
  - apply (suiteEnd_fatal_iff_suite_error suite_with_suite_error
             runner_reporter empty_world); [reflexivity | discriminate | discriminate |].
    right. eexists. split; [apply list_elem_of_here | cbn; eauto].
  - intros He.
    apply (suiteEnd_fatal_iff_suite_error suite_with_test_error
             runner_reporter empty_world) in He;
      [| reflexivity | discriminate | discriminate].
    destruct He as [[x Hx] | (s & Hs & _)]; [discriminate |].
    cbn in Hs. apply elem_of_nil in Hs. exact Hs.
Defined.

(** C3 as the specification words it fails: the root suite whose test
    carries an error is summarised without the fatal suffix. *)
Lemma test_error_not_reported_fatal :
  ~ fatal_iff_error_in_tests suite_with_test_error.
Proof.
  intros [_ Hclaim].
  assert (Hend : ends_with fatal_suffix (suite_summary suite_with_test_error)).
  { apply Hclaim. right. eexists. split; [apply list_elem_of_here | cbn; eauto]. }
  apply suite_summary_fatal in Hend. vm_compute in Hend. discriminate.
Qed.

(** ** Objects in property order *)







(** ** The error ledger *)

Section Ledger.

Variable gem : option ErrorObject -> string.



(** Apart from the ledger and the output stream, [testFail] changes
    nothing. *)
Lemma testFail_frame (test : Test.t) (st st' : State) :
  testFail gem test st = Done st' ->
  sessions st'.1 = sessions st.1
  /\ hasErrors st'.1 = hasErrors st.1
  /\ _collector st'.1 = _collector st.1
  /\ _filename st'.1 = _filename st.1
  /\ _mode st'.1 = _mode st.1
  /\ fs st'.2 = fs st.2
  /\ console st'.2 = console st.2
  /\ output st'.2 = output st.2 ++ [Sty red (Str "×")].
Proof.
  destruct st as [r w]. intros Hdone.
  destruct (testFail_cases gem test r w) as [(what & Ht & _) | (errors & Ht & _)];
    rewrite Ht in Hdone; [discriminate |].
  injection Hdone as <-. now cbn.
Qed.











End Ledger.




(** ** Accepting and rejecting coverage *)

(** C5, as amended.  When a session is registered under the identifier of
    the call (the empty string standing for no identifier) and the mode is
    "client" or the identifier is not empty, [coverage] returns with the
    snapshot merged into the collector and that session marked as having
    coverage, and nothing else changed.  When the mode is not "client" and
    the identifier is empty, [coverage] returns with the reporter
    unchanged, whether or not a session is registered. *)
Theorem coverage_accepted_when_registered
    (r : Reporter) (sessionId : string) (cov : Coverage) :
  (forall session,
      sessions r !! str_or sessionId "" = Some session ->
      _mode r = "client" \/ sessionId <> "" ->
      coverage sessionId cov r
      = Done (mkReporter
                (<[str_or sessionId "" := Session.mk (Session.suite session) true]>
                   (sessions r))
                (hasErrors r) (Collector_add (_collector r) cov) (_errors r)
                (_filename r) (_mode r))
      /\ merged_and_marked r sessionId cov (coverage sessionId cov r))
  /\ (~ (_mode r = "client" \/ sessionId <> "") ->
      coverage sessionId cov r = Done r).
Proof.
  split.
  - intros session Hs Hacc. apply accepts_iff in Hacc.
    rewrite (coverage_registered _ _ _ _ Hacc Hs). split; [reflexivity |].
    eexists. split; [reflexivity |]. split; [reflexivity |].
    eexists. cbn. now rewrite lookup_insert_eq.
  - intros Hrej. apply coverage_rejected.
    destruct (accepts r sessionId) eqn:Ha; [| reflexivity].
    apply accepts_iff in Ha. contradiction.
Qed.

Lemma coverage_accepted_when_registered_witness :
  merged_and_marked reporter_with_A "session-a" snapshot_X3
                    (coverage "session-a" snapshot_X3 reporter_with_A)
  /\ coverage "" snapshot_X3 reporter_with_A = Done reporter_with_A.
Proof.
  destruct (coverage_accepted_when_registered reporter_with_A "session-a" snapshot_X3)
    as [Hacc _].
  destruct (coverage_accepted_when_registered reporter_with_A "" snapshot_X3)
    as [_ Hrej].
  split.
  - apply (Hacc (Session.mk 0 false)); [reflexivity | right; discriminate].
  - apply Hrej. intros [Hc | Hs]; [discriminate | now apply Hs].
Defined.

(** C5 as the specification words it fails: in client mode, a snapshot
    that arrives before a session is registered is not merged; the call
    throws. *)
Lemma coverage_unregistered_not_accepted :
  ~ accepted_exactly_when_attributable client_reporter "" snapshot_X3.
Proof.
  intros [Hacc _].
  destruct (Hacc (or_introl eq_refl)) as (r' & Hdone & _).
  vm_compute in Hdone. discriminate.
Qed.

Lemma run_app (gem : option ErrorObject -> string) (t1 t2 : list (Heap * Event))
    (st : State) :
  run gem (t1 ++ t2) st
  = match run gem t1 st with
    | Done st1 => run gem t2 st1
    | Thrown e st1 => Thrown e st1
    end.
Proof.
  revert st. induction t1 as [| [H ev] t1 IH]; intros st; [reflexivity |].
  cbn [run app]. destruct (step gem H ev st); [apply IH | reflexivity].
Qed.




(** ** Merging coverage *)

Lemma count_Collector_add (X : string) (a b : Coverage) :
  count X (Collector_add a b) = (count X a + count X b)%N.
Proof.
  unfold count, Collector_add. rewrite lookup_union_with.
  destruct (a !! X), (b !! X); cbn; lia.
Qed.

Lemma count_merge_all (X : string) (a : Coverage) (l : list Coverage) :
  count X (foldl Collector_add a l) = (count X a + sum_counts X l)%N.
Proof.
  revert a. induction l as [| c l IH]; intros a; cbn.
  - lia.
  - rewrite IH, count_Collector_add. unfold sum_counts. lia.
Qed.

Lemma run_attributed (gem : option ErrorObject -> string) (trace : list (Heap * Event))
    (st : State) :
  attributed (_mode st.1) (dom (sessions st.1)) trace = true ->
  exists st' : State,
    run gem trace st = Done st'
    /\ _collector st'.1
       = foldl Collector_add (_collector st.1) (accepted_snapshots (_mode st.1) trace)
    /\ fs st'.2 = fs st.2
    /\ _filename st'.1 = _filename st.1
    /\ _mode st'.1 = _mode st.1.
Proof.
  revert st. induction trace as [| [H ev] rest IH]; intros [r w] Hatt.
  - exists (r, w). now cbn.
  - cbn [fst snd] in *.
    destruct ev as [ref | ref | | test | | sid cov |];
      cbn [attributed accepted_snapshots run step] in *.
    + destruct (IH (suiteStart (H ref) ref (r, w))) as (st' & Hrun & Hc & Hf & Hn & Hm).
      { unfold suiteStart.
        destruct (Suite.parent (H ref)); [exact Hatt |].
        destruct (truthy (Suite.sessionId (H ref))); cbn [fst _mode sessions set_sessions];
          now rewrite dom_insert_L. }
      exists st'. split; [exact Hrun |]. rewrite Hc, Hf, Hn, Hm.
      unfold suiteStart. destruct (Suite.parent (H ref)); [now cbn |].
      now destruct (truthy (Suite.sessionId (H ref))).
    + destruct (IH (suiteEnd (H ref) (r, w))) as (st' & Hrun & Hc & Hf & Hn & Hm).
      { unfold suiteEnd. now destruct (bool_decide _ || String.eqb _ _ || negb _). }
      exists st'. split; [exact Hrun |]. rewrite Hc, Hf, Hn, Hm.
      unfold suiteEnd. now destruct (bool_decide _ || String.eqb _ _ || negb _).
    + destruct (IH (testPass (r, w)) Hatt) as (st' & Hrun & Hc & Hf & Hn & Hm).
      exists st'. now rewrite Hc, Hf, Hn, Hm.
    + apply andb_true_iff in Hatt as [Hi Hatt]. apply negb_true_iff in Hi.
      destruct (testFail_plain gem test (r, w) Hi) as [st1 Hdone].
      destruct (testFail_frame gem test _ _ Hdone) as (Hs1 & _ & Hc1 & Hn1 & Hm1 & Hf1 & _).
      cbn [fst snd] in *. rewrite Hdone.
      destruct (IH st1) as (st' & Hrun & Hc & Hf & Hn & Hm).
      { now rewrite Hm1, Hs1. }
      exists st'. split; [exact Hrun |]. now rewrite Hc, Hf, Hn, Hm, Hc1, Hf1, Hn1, Hm1.
    + destruct (IH (testSkip (r, w)) Hatt) as (st' & Hrun & Hc & Hf & Hn & Hm).
      exists st'. now rewrite Hc, Hf, Hn, Hm.
    + apply andb_true_iff in Hatt as [Hreg Hatt]. cbn [fst snd]. unfold coverage.
      destruct (String.eqb (_mode r) "client" || truthy sid).
      * apply bool_decide_eq_true in Hreg.
        pose proof Hreg as Hdom.
        apply elem_of_dom in Hreg as [session Hs]. rewrite Hs.
        match goal with
        | |- context [run gem rest ?s] =>
            destruct (IH s) as (st' & Hrun & Hc & Hf & Hn & Hm)
        end.
        { cbn [fst _mode sessions set_sessions set_collector].
          rewrite dom_insert_L.
          assert (Heq : {[str_or sid ""]} ∪ dom (sessions r) = dom (sessions r))
            by now apply subseteq_union_1_L, singleton_subseteq_l.
          now rewrite Heq. }
        exists st'. now rewrite Hc, Hf, Hn, Hm.
      * destruct (IH (r, w) Hatt) as (st' & Hrun & Hc & Hf & Hn & Hm).
        exists st'. now rewrite Hc, Hf, Hn, Hm.
    + discriminate.
Qed.

(** ** Writing the coverage at the end of the run *)

Lemma checkCoverageFinal_true (f : FileSystem) :
  checkCoverageFinal f = true
  <-> exists file, f !! DEFAULT_COVERAGE_FILENAME = Some file /\ readable file = true.
Proof.
  unfold checkCoverageFinal, accessSync.
  destruct (f !! DEFAULT_COVERAGE_FILENAME) as [file |].
  - destruct (readable file) eqn:Hr; split; try discriminate; eauto.
    intros (file' & Heq & Hr'). congruence.
  - split; [discriminate | intros (file & Heq & _); discriminate].
Qed.

Lemma checkCoverageFinal_false (f : FileSystem) :
  checkCoverageFinal f = false
  <-> f !! DEFAULT_COVERAGE_FILENAME = None
      \/ exists file, f !! DEFAULT_COVERAGE_FILENAME = Some file /\ readable file = false.
Proof.
  unfold checkCoverageFinal, accessSync.
  destruct (f !! DEFAULT_COVERAGE_FILENAME) as [file |].
  - destruct (readable file) eqn:Hr; split; try discriminate; eauto.
    intros [Hn | (file' & Heq & Hr')]; congruence.
  - split; [auto | reflexivity].
Qed.

(** When nothing readable is at the default path, nothing is read and the
    report is written, whatever the configured path and whatever is
    there. *)
Lemma writeCoverage_probe_fails (r : Reporter) (w : World) :
  checkCoverageFinal (fs w) = false ->
  _writeCoverage (r, w) = Done (r, writeReport r w).
Proof. intros Hc. unfold _writeCoverage. now rewrite Hc. Qed.

(** With the default output path, a readable artifact is merged before
    the report is written. *)
Lemma writeCoverage_default_merges (r : Reporter) (w : World) (prior : Coverage) :
  _filename r = DEFAULT_COVERAGE_FILENAME ->
  fs w !! DEFAULT_COVERAGE_FILENAME = Some (report_file prior) ->
  _writeCoverage (r, w)
  = Done (set_collector (Collector_add (_collector r) prior) r,
          writeReport (set_collector (Collector_add (_collector r) prior) r) w).
Proof.
  intros Hf Hp. unfold _writeCoverage.
  assert (Hc : checkCoverageFinal (fs w) = true).
  { apply checkCoverageFinal_true. now exists (report_file prior). }
  rewrite Hc. unfold readFileSync. now rewrite Hf, Hp.
Qed.

(** With the default output path, an artifact that is not JSON stops the
    finalization with a [SyntaxError] before anything is written. *)
Lemma writeCoverage_default_malformed (r : Reporter) (w : World) :
  _filename r = DEFAULT_COVERAGE_FILENAME ->
  fs w !! DEFAULT_COVERAGE_FILENAME = Some {| readable := true; contents := Malformed |} ->
  _writeCoverage (r, w) = Thrown SyntaxError (r, w).
Proof.
  intros Hf Hp. unfold _writeCoverage.
  assert (Hc : checkCoverageFinal (fs w) = true).
  { apply checkCoverageFinal_true. eexists. split; [exact Hp | reflexivity]. }
  rewrite Hc. unfold readFileSync. now rewrite Hf, Hp.
Qed.

Lemma runEnd_fs (H : Heap) (r : Reporter) (w : World) (r' : Reporter) :
  (forall w1, fs w1 = fs w -> _writeCoverage (r, w1) = Done (r', writeReport r' w1)) ->
  exists w', runEnd H (r, w) = Done (r', w')
             /\ fs w' = <[_filename r' := report_file (_collector r')]> (fs w).
Proof.
  intros Hw. unfold runEnd. rewrite Hw by reflexivity.
  eexists. split; reflexivity.
Qed.

(** C1, as amended.  Take a reporter that writes to the default path, and
    a run in which every accepted snapshot arrives after its session
    registered.  If a readable artifact is at that path, the run with its
    end completes and leaves there a report that shows, for every file,
    the count of that artifact plus the counts of the snapshots accepted
    during the run (those delivered in client mode or with a session
    identifier), on top of what the collector held at the start; if no
    readable file is there, the same without the artifact.  A snapshot
    delivered without a session identifier outside client mode is not in
    the report. *)
Theorem finalized_coverage_merges_accepted
    (gem : option ErrorObject -> string) (trace : list (Heap * Event)) (H : Heap)
    (r0 : Reporter) (w0 : World) :
  _filename r0 = DEFAULT_COVERAGE_FILENAME ->
  attributed (_mode r0) (dom (sessions r0)) trace = true ->
  (forall prior,
      fs w0 !! DEFAULT_COVERAGE_FILENAME = Some (report_file prior) ->
      exists r' w',
        run gem (trace ++ [(H, EvRunEnd)]) (r0, w0) = Done (r', w')
        /\ fs w' !! DEFAULT_COVERAGE_FILENAME = Some (report_file (_collector r'))
        /\ forall X,
            count X (_collector r')
            = (count X prior + count X (_collector r0)
               + sum_counts X (accepted_snapshots (_mode r0) trace))%N)
  /\ (checkCoverageFinal (fs w0) = false ->
      exists r' w',
        run gem (trace ++ [(H, EvRunEnd)]) (r0, w0) = Done (r', w')
        /\ fs w' !! DEFAULT_COVERAGE_FILENAME = Some (report_file (_collector r'))
        /\ forall X,
            count X (_collector r')
            = (count X (_collector r0)
               + sum_counts X (accepted_snapshots (_mode r0) trace))%N).
Proof.
  intros Hfile Hatt.
  destruct (run_attributed gem trace (r0, w0) Hatt)
    as ([r w] & Hrun & Hc & Hfs & Hn & Hm).
  cbn [fst snd] in *. rewrite Hfile in Hn. split.
  - intros prior Hprior.
    destruct (runEnd_fs H r w (set_collector (Collector_add (_collector r) prior) r))
      as (w' & Hend & Hfs').
    { intros w1 Hw1. apply writeCoverage_default_merges; [exact Hn |].
      now rewrite Hw1, Hfs. }
    eexists _, w'. rewrite run_app, Hrun. cbn [run step]. rewrite Hend.
    split; [reflexivity |]. split.
    + rewrite Hfs'. cbn [_filename set_collector]. rewrite Hn.
      apply lookup_insert_eq.
    + intros X. cbn [_collector set_collector].
      rewrite count_Collector_add, Hc, count_merge_all. lia.
  - intros Hprobe.
    destruct (runEnd_fs H r w r) as (w' & Hend & Hfs').
    { intros w1 Hw1. apply writeCoverage_probe_fails. now rewrite Hw1, Hfs. }
    eexists _, w'. rewrite run_app, Hrun. cbn [run step]. rewrite Hend.
    split; [reflexivity |]. split.
    + rewrite Hfs', Hn. apply lookup_insert_eq.
    + intros X. now rewrite Hc, count_merge_all.
Qed.

Lemma finalized_coverage_merges_accepted_witness :
  exists r' w',
    run show_error (trace_attributed ++ [(heap_AB, EvRunEnd)])
        (runner_reporter, world_prior_X5) = Done (r', w')
    /\ fs w' !! DEFAULT_COVERAGE_FILENAME = Some (report_file (_collector r'))
    /\ count "X" (_collector r') = 8%N.
Proof.
  destruct (finalized_coverage_merges_accepted show_error trace_attributed heap_AB
              runner_reporter world_prior_X5)
    as [Hprior _].
  - reflexivity.
  - reflexivity.
  - destruct (Hprior {[ "X" := 5%N ]}) as (r' & w' & Hrun & Hfs & Hcount).
    + reflexivity.
    + exists r', w'. split; [exact Hrun |]. split; [exact Hfs |].
      rewrite Hcount. reflexivity.
Defined.

(** C1 as the specification words it fails: with count 5 for X on disk
    and a snapshot with count 3 for X delivered without a session
    identifier outside client mode, the report shows 5. *)
Lemma unattributed_snapshot_not_in_report :
  ~ finalized_is_union show_error (runner_reporter, world_prior_X5)
      trace_unattributed heap_AB.
Proof.
  intros Hclaim.
  destruct (Hclaim {[ "X" := 5%N ]} eq_refl) as (report & Hfile & Hcount).
  assert (Hshown : fs (final (run show_error (trace_unattributed ++ [(heap_AB, EvRunEnd)])
                                 (runner_reporter, world_prior_X5))).2
                   !! DEFAULT_COVERAGE_FILENAME
                   = Some (report_file {[ "X" := 5%N ]})) by (vm_compute; reflexivity).
  change (_filename (runner_reporter, world_prior_X5).1)
    with DEFAULT_COVERAGE_FILENAME in Hfile.
  rewrite Hshown in Hfile. injection Hfile as <-.
  specialize (Hcount "X"). vm_compute in Hcount. discriminate.
Qed.

(** ** The probe and the read look at different paths *)

Lemma runEnd_thrown (H : Heap) (r : Reporter) (w : World) (e : Exn) :
  (forall w1, fs w1 = fs w -> _writeCoverage (r, w1) = Thrown e (r, w1)) ->
  threw (runEnd H (r, w)) = Some e
  /\ (final (runEnd H (r, w))).1 = r
  /\ fs (final (runEnd H (r, w))).2 = fs w.
Proof.
  intros Hw. unfold runEnd. now rewrite Hw.
Qed.

(** The finalization probes the default path but reads the configured
    path.  When a readable file is at the default path and the file at the
    configured path is absent, [runEnd] throws [ENOENT]; when that file
    cannot be read, [runEnd] throws [EACCES].  In both cases the exception
    leaves [runEnd] and no report is written. *)
Lemma missing_configured_file_throws (H : Heap) (r : Reporter) (w : World) :
  checkCoverageFinal (fs w) = true ->
  accessSync (fs w) (_filename r) <> None ->
  exists e,
    accessSync (fs w) (_filename r) = Some e
    /\ threw (runEnd H (r, w)) = Some e
    /\ (final (runEnd H (r, w))).1 = r
    /\ fs (final (runEnd H (r, w))).2 = fs w.
Proof.
  intros Hprobe Hgone.
  destruct (accessSync (fs w) (_filename r)) as [e |] eqn:Ha; [| congruence].
  exists e. split; [reflexivity |].
  apply runEnd_thrown. intros w1 Hw1.
  unfold _writeCoverage. rewrite Hw1, Hprobe.
  unfold accessSync in Ha. unfold readFileSync.
  destruct (fs w !! _filename r) as [f |].
  - destruct (readable f); [discriminate | congruence].
  - congruence.
Qed.

(** C4.  When the prior artifact, the file at the default path, is absent
    or cannot be read, [runEnd] completes for every configured output
    path: no exception is raised, nothing is read from disk, the reporter
    and so the collector are as they were, and the report of the
    collector has been written to the configured path. *)
Theorem missing_default_artifact_is_noop (H : Heap) (r : Reporter) (w : World) :
  fs w !! DEFAULT_COVERAGE_FILENAME = None
  \/ (exists file, fs w !! DEFAULT_COVERAGE_FILENAME = Some file
                   /\ readable file = false) ->
  _writeCoverage (r, w) = Done (r, writeReport r w)
  /\ exists w',
      runEnd H (r, w) = Done (r, w')
      /\ fs w' = <[_filename r := report_file (_collector r)]> (fs w).
Proof.
  intros Hgone. apply checkCoverageFinal_false in Hgone. split.
  - now apply writeCoverage_probe_fails.
  - apply runEnd_fs. intros w1 Hw1.
    apply writeCoverage_probe_fails. now rewrite Hw1.
Qed.

Lemma missing_default_artifact_is_noop_witness :
  exists w',
    runEnd heap_AB (custom_reporter, empty_world) = Done (custom_reporter, w')
    /\ fs w' = {[ "out.json" := report_file ∅ ]}.
Proof.
  destruct (missing_default_artifact_is_noop heap_AB custom_reporter empty_world)
    as [_ (w' & Hend & Hfs)].
  - left. reflexivity.
  - exists w'. split; [exact Hend |]. rewrite Hfs. reflexivity.
Defined.

(** With the default output path the two paths are one, and a missing or
    unreadable artifact is passed over: nothing is read and the report is
    written. *)
Lemma default_path_missing_artifact (H : Heap) (r : Reporter) (w : World) :
  _filename r = DEFAULT_COVERAGE_FILENAME ->
  accessSync (fs w) (_filename r) <> None ->
  exists w',
    runEnd H (r, w) = Done (r, w')
    /\ fs w' = <[_filename r := report_file (_collector r)]> (fs w).
Proof.
  intros Hf Hgone. apply runEnd_fs. intros w1 Hw1.
  apply writeCoverage_probe_fails. rewrite Hw1.
  unfold checkCoverageFinal. rewrite Hf in Hgone.
  now destruct (accessSync (fs w) DEFAULT_COVERAGE_FILENAME).
Qed.



(** The other way round: a file that is not JSON at the default path is
    never parsed when the configured path holds an artifact; that one is
    merged. *)
Lemma malformed_default_not_parsed :
  exists w',
    runEnd heap_AB (custom_reporter, world_corrupt_default)
    = Done (set_collector {[ "X" := 5%N ]} custom_reporter, w')
    /\ fs w' !! "out.json" = Some (report_file {[ "X" := 5%N ]}).
Proof. eexists. split; vm_compute; reflexivity. Qed.

(** With the default output path, an artifact that is not JSON makes
    [runEnd] throw a [SyntaxError], and the file is left as it was. *)
Lemma default_path_malformed_artifact (H : Heap) (r : Reporter) (w : World) :
  _filename r = DEFAULT_COVERAGE_FILENAME ->
  fs w !! _filename r = Some {| readable := true; contents := Malformed |} ->
  threw (runEnd H (r, w)) = Some SyntaxError
  /\ (final (runEnd H (r, w))).1 = r
  /\ fs (final (runEnd H (r, w))).2 = fs w.
Proof.
  intros Hf Hbad. apply runEnd_thrown. intros w1 Hw1.
  apply writeCoverage_default_malformed; [exact Hf |].
  now rewrite Hw1, <- Hf.
Qed.

(** * Further properties *)

(** ** Finalizing twice *)

Lemma writeCoverage_shape (r : Reporter) (w : World) :
  (exists e, _writeCoverage (r, w) = Thrown e (r, w))
  \/ (exists c, _writeCoverage (r, w)
                = Done (set_collector c r, writeReport (set_collector c r) w)).
Proof.
  unfold _writeCoverage.
  destruct (checkCoverageFinal (fs w)).
  - destruct (readFileSync (fs w) (_filename r)) as [e | text]; [left; eauto |].
    destruct (JSON_parse text) as [e | [previous |]]; [left | right | left]; eauto.
  - right. exists (_collector r). now destruct r.
Qed.

Lemma runEnd_done_inv (H : Heap) (r : Reporter) (w : World) (r1 : Reporter) (w1 : World) :
  runEnd H (r, w) = Done (r1, w1) ->
  _filename r1 = _filename r
  /\ fs w1 = <[_filename r := report_file (_collector r1)]> (fs w).
Proof.
  unfold runEnd.
  destruct (writeCoverage_shape r (mkWorld (fs w) (console w ++ runEnd_logs H r) (output w)))
    as [[e ->] | [c ->]]; [discriminate |].
  intros Heq. injection Heq as <- <-. now cbn.
Qed.

(** X5.  [runEnd] is not idempotent when it writes to the default path:
    a second [runEnd] after one that completed reads back the report that
    the first one wrote and merges it, so that it completes with every
    count doubled, and leaves the doubled report on disk. *)
Theorem runEnd_twice_doubles (H1 H2 : Heap) (r : Reporter) (w : World)
    (r1 : Reporter) (w1 : World) :
  _filename r = DEFAULT_COVERAGE_FILENAME ->
  runEnd H1 (r, w) = Done (r1, w1) ->
  exists r2 w2,
    runEnd H2 (r1, w1) = Done (r2, w2)
    /\ _collector r2 = Collector_add (_collector r1) (_collector r1)
    /\ (forall X, count X (_collector r2) = (2 * count X (_collector r1))%N)
    /\ fs w2 !! DEFAULT_COVERAGE_FILENAME = Some (report_file (_collector r2)).
Proof.
  intros Hf Hfirst.
  destruct (runEnd_done_inv _ _ _ _ _ Hfirst) as [Hf1 Hfs1].
  rewrite Hf in Hf1, Hfs1.
  destruct (runEnd_fs H2 r1 w1
              (set_collector (Collector_add (_collector r1) (_collector r1)) r1))
    as (w2 & Hsecond & Hfs2).
  { intros w' Hw'. apply writeCoverage_default_merges; [exact Hf1 |].
    rewrite Hw', Hfs1. apply lookup_insert_eq. }
  eexists _, w2. split; [exact Hsecond |]. split; [reflexivity |]. split.
  - intros X. cbn [_collector set_collector]. rewrite count_Collector_add. lia.
  - rewrite Hfs2. cbn [_filename set_collector]. rewrite Hf1. apply lookup_insert_eq.
Qed.

Lemma runEnd_twice_doubles_witness :
  exists r1 w1 r2 w2,
    runEnd heap_AB (reporter_X4, empty_world) = Done (r1, w1)
    /\ runEnd heap_AB (r1, w1) = Done (r2, w2)
    /\ count "X" (_collector r1) = 4%N
    /\ count "X" (_collector r2) = 8%N.
Proof.
  destruct (runEnd heap_AB (reporter_X4, empty_world)) as [[r1 w1] | e st] eqn:Hfirst;
    [| vm_compute in Hfirst; discriminate].
  destruct (runEnd_twice_doubles heap_AB heap_AB reporter_X4 empty_world r1 w1 eq_refl Hfirst)
    as (r2 & w2 & Hsecond & _ & Hcount & _).
  exists r1, w1, r2, w2. split; [reflexivity |]. split; [exact Hsecond |].
  assert (H4 : count "X" (_collector r1) = 4%N).
  { vm_compute in Hfirst. injection Hfirst as <- _. reflexivity. }
  split; [exact H4 |]. rewrite Hcount, H4. reflexivity.
Defined.

(** ** The output stream *)

Lemma step_output (gem : option ErrorObject -> string) (H : Heap) (ev : Event)
    (st st' : State) :
  step gem H ev st = Done st' ->
  output st'.2 = output st.2 ++ glyph_of ev.
Proof.
  destruct st as [r w]. intros Hdone.
  destruct ev as [ref | ref | | test | | sid cov |]; cbn [step glyph_of] in *;
    rewrite ?app_nil_r.
  - injection Hdone as <-.
    unfold suiteStart. destruct (Suite.parent (H ref)); [reflexivity |].
    now destruct (truthy (Suite.sessionId (H ref))).
  - injection Hdone as <-.
    unfold suiteEnd. now destruct (bool_decide _ || String.eqb _ _ || negb _).
  - now injection Hdone as <-.
  - now destruct (testFail_frame gem test _ _ Hdone) as (_ & _ & _ & _ & _ & _ & _ & ->).
  - now injection Hdone as <-.
  - cbn [fst snd] in Hdone. destruct (coverage sid cov r); [| discriminate].
    now injection Hdone as <-.
  - unfold runEnd in Hdone.
    destruct (writeCoverage_keeps
                (r, mkWorld (fs w) (console w ++ runEnd_logs H r) (output w)))
      as (_ & Ho & _).
    rewrite Hdone in Ho. exact Ho.
Qed.

Lemma run_output (gem : option ErrorObject -> string) (trace : list (Heap * Event))
    (st st' : State) :
  run gem trace st = Done st' ->
  output st'.2 = output st.2 ++ flat_map (fun he => glyph_of he.2) trace.
Proof.
  revert st. induction trace as [| [H ev] rest IH]; intros st Hrun.
  - cbn in *. injection Hrun as <-. now rewrite app_nil_r.
  - cbn [run] in Hrun.
    destruct (step gem H ev st) as [st1 | e st1] eqn:Hstep; [| discriminate].
    rewrite (IH st1 Hrun), (step_output gem H ev st st1 Hstep).
    cbn [flat_map snd]. now rewrite app_assoc.
Qed.

(** X6.  After any sequence of suite and test events in which no failed
    test has a session identifier naming a member of [Object.prototype],
    no handler has thrown and the output stream holds, after what it held
    before, one glyph per test event and in the order of the events: the
    red cross for a failed test, the green check mark for a passed one,
    the grey tilde for a skipped one.  Suite events write nothing to
    it. *)
Theorem output_stream_mirrors_tests
    (gem : option ErrorObject -> string) (trace : list (Heap * Event)) (st : State) :
  Forall (fun he => is_lifecycle he.2 = true) trace ->
  Forall (fun test => inherited (Test.sessionId test) = false) (failed_tests trace) ->
  exists st' : State,
    run gem trace st = Done st'
    /\ output st'.2
       = output st.2
         ++ flat_map (fun he =>
                        match he.2 with
                        | EvTestFail _ => [Sty red (Str "×")]
                        | EvTestPass => [Sty green (Str "✓")]
                        | EvTestSkip => [Sty grey (Str "~")]
                        | _ => []
                        end) trace.
Proof.
  intros Hall Hplain.
  destruct (run_lifecycle gem trace st Hall Hplain) as (st' & Hrun & _).
  exists st'. split; [exact Hrun |]. rewrite (run_output gem trace _ _ Hrun).
  reflexivity.
Qed.

Lemma output_stream_mirrors_tests_witness :
  exists st' : State,
    run show_error trace_outcomes (runner_reporter, empty_world) = Done st'
    /\ map plain (output st'.2) = ["✓"; "×"; "~"; "✓"].
Proof.
  destruct (output_stream_mirrors_tests show_error trace_outcomes
              (runner_reporter, empty_world))
    as (st' & Hrun & Hout).
  - repeat constructor.
  - repeat constructor.
  - exists st'. split; [exact Hrun |]. rewrite Hout. reflexivity.
Defined.

(** ** Replaying the ledger *)





(** ** The header above the replayed failures *)

Lemma replay_errors_calls (errors : JsObject.t (list Entry.t)) (call : LogCall) :
  call ∈ replay_errors errors -> exists entry, call = failure_log entry.
Proof.
  unfold replay_errors. intros Hin.
  apply list_elem_of_In, in_flat_map in Hin as (sid & _ & Hin).
  apply in_map_iff in Hin as (entry & <- & _). now exists entry.
Qed.

(** X8.  [runEnd] prints the header "Reported Test Errors:" exactly when
    the root suites of the registered sessions count a failed test; the
    ledger plays no part in it.  Whatever the counters, every entry of the
    ledger is replayed; with an empty registry no header is printed above
    them. *)
Theorem errors_header_iff_counted (H : Heap) (r : Reporter) :
  (errors_header ∈ runEnd_logs H r <-> numFailedTests (totals H r) <> 0%N)
  /\ (forall call, call ∈ replay_errors (_errors r) -> call ∈ runEnd_logs H r)
  /\ (sessions r = ∅ -> errors_header ∉ runEnd_logs H r).
Proof.
  assert (Hiff : errors_header ∈ runEnd_logs H r <-> numFailedTests (totals H r) <> 0%N).
  { unfold runEnd_logs. fold errors_header.
    rewrite !elem_of_app.
    destruct (0 <? numFailedTests (totals H r))%N eqn:Hf.
    - apply N.ltb_lt in Hf. split; [lia |]. intros _.
      right. left. apply list_elem_of_here.
    - apply N.ltb_ge in Hf. split; [| lia].
      intros [Hblank | [Hnone | [Hreplay | Htotal]]]; exfalso.
      + apply list_elem_of_singleton in Hblank.
        unfold errors_header in Hblank. discriminate.
      + now apply elem_of_nil in Hnone.
      + apply replay_errors_calls in Hreplay as [entry Heq].
        unfold errors_header, failure_log in Heq. discriminate.
      + apply list_elem_of_singleton in Htotal.
        unfold errors_header, total_line in Htotal.
        destruct ((0 <? numFailedTests (totals H r))%N || hasErrors r); discriminate. }
  split; [exact Hiff |]. split.
  - intros call Hin. unfold runEnd_logs. rewrite !elem_of_app. auto.
  - intros Hempty. rewrite Hiff. unfold totals. rewrite Hempty, map_fold_empty.
    cbn. lia.
Qed.

Lemma errors_header_iff_counted_witness :
  errors_header ∉ runEnd_logs heap_AB
                  (set_errors (JsObject.set "session-a" [entry_of show_error flaky_test]
                                            JsObject.empty)
                              runner_reporter).
Proof.
  apply (errors_header_iff_counted heap_AB). reflexivity.
Defined.

(** ** When [suiteEnd] prints *)

(** X9.  [suiteEnd] never changes the reporter, the files or the output
    stream.  It prints nothing when the suite has a parent, when the mode
    is "client", or when the suite has no session identifier; in every
    other case it makes exactly two calls of [console.log], the first
    with one line feed and the second with the summary followed by a line
    feed. *)
Theorem suiteEnd_prints_for_remote_roots_only
    (suite : Suite.t) (r : Reporter) (w : World) :
  let st' := suiteEnd suite (r, w) in
  st'.1 = r
  /\ fs st'.2 = fs w
  /\ output st'.2 = output w
  /\ (console st'.2 = console w
      <-> is_Some (Suite.parent suite) \/ _mode r = "client" \/ Suite.sessionId suite = "")
  /\ (console st'.2 <> console w ->
      console st'.2
      = console w
        ++ [ [Str nl];
             [Cat (Sty (suite_style suite) (Str (suite_summary suite))) (Str nl)] ]
      /\ map log_plain (console st'.2)
         = map log_plain (console w) ++ [ nl; suite_summary suite +:+ nl ]).
Proof.
  intros st'. subst st'. unfold suiteEnd.
  destruct (bool_decide (is_Some (Suite.parent suite))) eqn:Hp;
    [apply bool_decide_eq_true in Hp | apply bool_decide_eq_false in Hp].
  - cbn. repeat split; auto; congruence.
  - destruct (String.eqb (_mode r) "client") eqn:Hm;
      [apply String.eqb_eq in Hm | apply String.eqb_neq in Hm].
    + cbn. repeat split; auto; congruence.
    + destruct (truthy (Suite.sessionId suite)) eqn:Hs;
        [apply truthy_true in Hs | apply truthy_false in Hs].
      * cbn. repeat split; try tauto.
        -- intros Heq. exfalso.
           apply (f_equal length) in Heq. rewrite <- app_assoc, length_app in Heq.
           cbn in Heq. lia.
        -- now rewrite <- app_assoc.
        -- now rewrite <- app_assoc, map_app.
      * cbn. repeat split; auto; congruence.
Qed.

Lemma suiteEnd_prints_for_remote_roots_only_witness :
  length (console (suiteEnd suite_A (runner_reporter, empty_world)).2) = 2
  /\ console (suiteEnd suite_A (client_reporter, empty_world)).2 = [].
Proof.
  destruct (suiteEnd_prints_for_remote_roots_only suite_A runner_reporter empty_world)
    as (_ & _ & _ & _ & Hlogs).
  destruct (suiteEnd_prints_for_remote_roots_only suite_A client_reporter empty_world)
    as (_ & _ & _ & Hsilent & _).
  split.
  - destruct Hlogs as [-> _]; [discriminate | reflexivity].
  - apply Hsilent. right. left. reflexivity.
Defined.

(** ** The colour of a suite summary *)

Lemma gt_zero_hasError (suite : Suite.t) :
  gt_zero (hasError suite) = true
  <-> (exists e, Suite.error suite = Some e /\ errGreaterThanZero e = true)
      \/ (Suite.error suite = None
          /\ exists s, s ∈ descendant_suites suite /\ is_Some (Suite.error s)).
Proof.
  pose proof (hasError_error_in_suites suite) as Hsuites.
  unfold error_in_suites in Hsuites.
  destruct suite as [n sid p e ts nt nf ns]. cbn [hasError Suite.error] in *.
  destruct e as [e |]; cbn [gt_zero to_boolean] in *.
  - split.
    + intros Hgt. left. eauto.
    + intros [(e' & He' & Hgt) | [Hnone _]]; [congruence | discriminate].
  - rewrite Hsuites. split.
    + intros [[x Hx] | Hbelow]; [discriminate | auto].
    + intros [(e' & He' & _) | [_ Hbelow]]; [discriminate | now right].
Qed.

(** X10.  The summary that [suiteEnd] prints is red exactly when the suite
    counts a failed test, or carries an error that compares greater than
    0, or carries no error itself while a suite below it carries one.
    The condition of the source compares the value of [hasError] with 0,
    and an error object compares through its text: a root suite that
    carries an error whose text is not a number above 0 and counts no
    failed test is printed green, although its summary ends with
    "; fatal error occurred". *)
Theorem suite_summary_colour (suite : Suite.t) :
  (suite_style suite = red
   <-> Suite.numFailedTests suite <> 0%N
       \/ (exists e, Suite.error suite = Some e /\ errGreaterThanZero e = true)
       \/ (Suite.error suite = None
           /\ exists s, s ∈ descendant_suites suite /\ is_Some (Suite.error s)))
  /\ (suite_style suite = red \/ suite_style suite = green)
  /\ (forall e, Suite.error suite = Some e -> errGreaterThanZero e = false ->
      Suite.numFailedTests suite = 0%N ->
      suite_style suite = green
      /\ ends_with fatal_suffix (suite_summary suite)).
Proof.
  assert (Hred : suite_style suite = red
                 <-> Suite.numFailedTests suite <> 0%N
                     \/ gt_zero (hasError suite) = true).
  { unfold suite_style.
    destruct (Suite.numFailedTests suite =? 0)%N eqn:Hf;
      [apply N.eqb_eq in Hf | apply N.eqb_neq in Hf];
      destruct (gt_zero (hasError suite)); cbn; split; auto; try discriminate.
    intros [? | ?]; [contradiction | discriminate]. }
  split; [now rewrite Hred, gt_zero_hasError |]. split.
  - unfold suite_style.
    destruct (negb (Suite.numFailedTests suite =? 0)%N || gt_zero (hasError suite)); auto.
  - intros e He Hle Hzero. split.
    + unfold suite_style. rewrite Hzero.
      destruct (gt_zero (hasError suite)) eqn:Hgt; [| reflexivity].
      apply gt_zero_hasError in Hgt as [(e' & He' & Hgt) | [Hnone _]]; congruence.
    + apply suite_summary_fatal, hasError_error_in_suites. left. rewrite He. eauto.
Qed.

Lemma suite_summary_colour_witness :
  suite_style suite_with_own_error = green
  /\ ends_with fatal_suffix (suite_summary suite_with_own_error).
Proof.
  destruct (suite_summary_colour suite_with_own_error) as (_ & _ & Hgreen).
  eapply Hgreen; reflexivity.
Defined.

(** ** Coverage and the summary *)

Lemma totals_same_suite (H : Heap) (r : Reporter) (k : string) (s s' : Session.t) :
  sessions r !! k = Some s ->
  Session.suite s' = Session.suite s ->
  totals H (set_sessions (<[k := s']> (sessions r)) r) = totals H r.
Proof.
  intros Hk Hsuite. unfold totals. cbn [sessions set_sessions].
  rewrite <- (insert_delete_id (sessions r) k s Hk) at 2.
  rewrite <- (insert_delete_eq (sessions r) k s').
  assert (Hcomm : forall (z1 z2 : Session.t) (y : Totals),
             add_session H z1 (add_session H z2 y)
             = add_session H z2 (add_session H z1 y)).
  { intros. unfold add_session. cbn. f_equal; lia. }
  rewrite (map_fold_insert_L (fun _ session acc => add_session H session acc)
             _ k s' (delete k (sessions r)));
    [| intros; apply Hcomm | apply lookup_delete_eq].
  rewrite (map_fold_insert_L (fun _ session acc => add_session H session acc)
             _ k s (delete k (sessions r)));
    [| intros; apply Hcomm | apply lookup_delete_eq].
  unfold add_session. now rewrite Hsuite.
Qed.

(** X11.  A call of [coverage], accepted, rejected or thrown, changes
    nothing of what [runEnd] prints: the sessions registered and their
    root suites, the totals and the ledger are as before, so the lines of
    the summary are the same with and without the call. *)
Theorem coverage_keeps_summary
    (H : Heap) (sessionId : string) (cov : Coverage) (r : Reporter) :
  let r' := final (coverage sessionId cov r) in
  dom (sessions r') = dom (sessions r)
  /\ (forall k, Session.suite <$> sessions r' !! k = Session.suite <$> sessions r !! k)
  /\ totals H r' = totals H r
  /\ runEnd_logs H r' = runEnd_logs H r.
Proof.
  intros r'. subst r'. unfold coverage.
  destruct (String.eqb (_mode r) "client" || truthy sessionId); [| now cbn].
  destruct (sessions r !! str_or sessionId "") as [session |] eqn:Hs;
    [| destruct (inherited (str_or sessionId "")); now cbn].
  cbn [final].
  assert (Ht : totals H (set_collector (Collector_add (_collector r) cov)
                           (set_sessions
                              (<[str_or sessionId "" := Session.mk (Session.suite session) true]>
                                 (sessions r)) r))
               = totals H r).
  { rewrite <- (totals_same_suite H r _ session
                  (Session.mk (Session.suite session) true) Hs eq_refl).
    reflexivity. }
  split; [| split; [| split]].
  - cbn. rewrite dom_insert_L.
    apply subseteq_union_1_L, singleton_subseteq_l, elem_of_dom. eauto.
  - intros k. cbn. destruct (decide (str_or sessionId "" = k)) as [<- | Hne].
    + now rewrite lookup_insert_eq, Hs.
    + now rewrite lookup_insert_ne.
  - exact Ht.
  - unfold runEnd_logs. now rewrite Ht.
Qed.

Lemma coverage_keeps_summary_witness :
  runEnd_logs heap_AB (final (coverage "session-a" snapshot_X3 reporter_with_A))
  = runEnd_logs heap_AB reporter_with_A.
Proof.
  apply (coverage_keeps_summary heap_AB "session-a" snapshot_X3 reporter_with_A).
Defined.

(** ** The configuration *)

Lemma step_configuration (gem : option ErrorObject -> string) (H : Heap) (ev : Event)
    (st : State) :
  let st' := final (step gem H ev st) in
  _filename st'.1 = _filename st.1
  /\ _mode st'.1 = _mode st.1
  /\ hasErrors st'.1 = hasErrors st.1.
Proof.
  destruct st as [r w].
  destruct ev as [ref | ref | | test | | sid cov |]; cbn [step final fst snd].
  - unfold suiteStart. destruct (Suite.parent (H ref)); [now cbn |].
    now destruct (truthy (Suite.sessionId (H ref))).
  - unfold suiteEnd. now destruct (bool_decide _ || String.eqb _ _ || negb _).
  - now cbn.
  - destruct (testFail_cases gem test r w) as [(what & -> & _) | (errors & -> & _)];
      now cbn.
  - now cbn.
  - unfold coverage.
    destruct (String.eqb (_mode r) "client" || truthy sid); [| now cbn].
    destruct (sessions r !! str_or sid ""); [now cbn |].
    now destruct (inherited (str_or sid "")).
  - unfold runEnd.
    destruct (writeCoverage_keeps
                (r, mkWorld (fs w) (console w ++ runEnd_logs H r) (output w)))
      as (_ & _ & _ & He & _ & Hf & Hm).
    now rewrite He, Hf, Hm.
Qed.

(** X12.  The constructor takes the output path from the option [file] and
    the mode from the option [mode], and falls back to
    "coverage-final.json" and to [intern.mode] when the option is absent
    or the empty string, so that the output path is never empty; the
    ledger starts empty.  No event, whether it returns or throws, changes
    the output path or the mode afterwards. *)
Theorem configuration_is_fixed
    (gem : option ErrorObject -> string) (intern_mode : string) (config : Config)
    (trace : list (Heap * Event)) (w : World) :
  let r := new_Reporter intern_mode config in
  let st' := final (run gem trace (r, w)) in
  _filename r <> ""
  /\ (forall f, file config = Some f -> f <> "" -> _filename r = f)
  /\ (file config = None \/ file config = Some "" ->
      _filename r = DEFAULT_COVERAGE_FILENAME)
  /\ (forall m, mode config = Some m -> m <> "" -> _mode r = m)
  /\ (mode config = None \/ mode config = Some "" -> _mode r = intern_mode)
  /\ _errors r = JsObject.empty
  /\ _filename st'.1 = _filename r
  /\ _mode st'.1 = _mode r.
Proof.
  intros r st'.
  assert (Hrun : forall st, _filename (final (run gem trace st)).1 = _filename st.1
                            /\ _mode (final (run gem trace st)).1 = _mode st.1).
  { induction trace as [| [H ev] rest IH]; intros st; [now cbn |].
    cbn [run]. destruct (step_configuration gem H ev st) as (Hf & Hm & _).
    destruct (step gem H ev st) as [st1 | e st1]; cbn [final] in *.
    - destruct (IH st1) as [Hf1 Hm1]. now rewrite Hf1, Hm1.
    - now split. }
  subst r st'. destruct (Hrun (new_Reporter intern_mode config, w)) as [Hf Hm].
  rewrite Hf, Hm. cbn [fst].
  unfold new_Reporter. cbn [_filename _mode _errors].
  repeat split.
  - destruct (file config) as [f |]; cbn; [| discriminate].
    unfold str_or. destruct (truthy f) eqn:Ht; [now apply truthy_true | discriminate].
  - intros f -> Hne. cbn. now apply str_or_truthy.
  - intros [-> | ->]; reflexivity.
  - intros m -> Hne. cbn. now apply str_or_truthy.
  - intros [-> | ->]; reflexivity.
Qed.

Lemma configuration_is_fixed_witness :
  _filename (new_Reporter "runner" {| file := Some ""; mode := Some "client" |})
  = DEFAULT_COVERAGE_FILENAME
  /\ _mode (new_Reporter "runner" {| file := Some ""; mode := Some "client" |})
     = "client".
Proof.
  destruct (configuration_is_fixed show_error "runner"
              {| file := Some ""; mode := Some "client" |} [] empty_world)
    as (_ & _ & Hfile & Hmode & _).
  split.
  - apply Hfile. right. reflexivity.
  - apply (Hmode "client"); [reflexivity | discriminate].
Defined.

(** ** The summary of a run without sessions *)

(** X13.  When no session is registered, [runEnd] counts nothing: the
    totals line reads "TOTAL: tested 0 platforms, 0/0 failed", green, or
    red with "; fatal error occurred" appended when the fatal-error flag
    is set; no header is printed, and the line follows the blank line and
    the replayed ledger. *)
Theorem runEnd_without_sessions (H : Heap) (r : Reporter) :
  sessions r = ∅ ->
  totals H r = mkTotals 0 0 0 0
  /\ runEnd_logs H r
     = [[]] ++ replay_errors (_errors r) ++ [[total_line (hasErrors r) (mkTotals 0 0 0 0)]]
  /\ plain (total_line (hasErrors r) (mkTotals 0 0 0 0))
     = nl +:+ "TOTAL: tested 0 platforms, 0/0 failed"
       +:+ (if hasErrors r then fatal_suffix else "")
  /\ outer_style (total_line (hasErrors r) (mkTotals 0 0 0 0))
     = Some (if hasErrors r then red else green).
Proof.
  intros Hempty.
  assert (Ht : totals H r = mkTotals 0 0 0 0).
  { unfold totals. now rewrite Hempty, map_fold_empty. }
  split; [exact Ht |]. split.
  - unfold runEnd_logs. rewrite Ht. reflexivity.
  - destruct (hasErrors r); split; reflexivity.
Qed.

Lemma runEnd_without_sessions_witness :
  log_plain <$> last (runEnd_logs heap_AB client_reporter)
  = Some (nl +:+ "TOTAL: tested 0 platforms, 0/0 failed").
Proof.
  destruct (runEnd_without_sessions heap_AB client_reporter eq_refl)
    as (_ & Hlogs & Htext & _).
  rewrite Hlogs. rewrite app_assoc, last_snoc. cbn [fmap option_fmap option_map log_plain].
  now rewrite Htext.
Defined.

(** ** The order of the sessions in the replay *)




Section LedgerOrder.

Variable gem : option ErrorObject -> string.



End LedgerOrder.


